(** * The open-addressed table of [hashmap.c] and the set of [BRSet.c]

    A shallow embedding of the two C files and the properties of the
    table and of the set built on it.

    Conventions of the embedding.
    - [int], [size_t] and pointers are integers of [Z].  The 32-bit
      [unsigned int] of the mixing function wraps around, and the wrap is
      written out ([to_uint]).  C leaves overflow of the signed [int]
      fields undefined; the model computes them exactly, so it describes
      the runs in which no [int] overflows.
    - A pointer is its address, [NULL] is [0].  The type [any_t] of the
      absent header [hashmap.h] is taken to be as wide as [size_t], so a
      key is stored and compared in full and only [hashmap_hash_int]
      truncates it.
    - The structs are records; the slot array is a list read with
      [Zget] and written with [Zset].  On a table whose array has
      [table_size] cells every index the probing computes is inside
      the array ([walk_range]).
    - The functions that update the table return the new table next to
      the C return value.
    - [malloc] and the [calloc] of [hashmap_new] are taken to succeed.
      The [calloc] of [hashmap_rehash] may fail: the insertion takes the
      allocator as a parameter [calloc_ok], which tells whether a request
      for that many cells is granted.  Within one insertion the requests
      grow strictly, so a function of the request stands for every
      behaviour of the allocator in that call.  [heap_limit L] grants the
      requests of at most [L] cells.
    - The grow-and-retry loop of [hashmap_put] has no bound in the
      source; the embedding gives it a budget [fuel] of rehashes and
      returns [None] when the budget does not suffice.  With an allocator
      that refuses the requests beyond some size the loop ends and a
      budget that suffices exists ([hashmap_put_returns]); a larger
      budget does not change what is returned ([hashmap_put_more_fuel]).
      A failed [assert] of [BRSet.c] is [None] as well: the call does
      not return. *)

From Stdlib Require Import ZArith List Bool Lia.
Import ListNotations.
Local Open Scope Z_scope.

(** ** Arrays indexed by C integers *)

Section ZArray.
Context {A : Type}.

Fixpoint upd_nth (n : nat) (l : list A) (x : A) : list A :=
  match l, n with
  | [], _ => []
  | _ :: t, O => x :: t
  | h :: t, S n' => h :: upd_nth n' t x
  end.

Definition Zget (d : A) (l : list A) (i : Z) : A := nth (Z.to_nat i) l d.
Definition Zset (l : list A) (i : Z) (x : A) : list A := upd_nth (Z.to_nat i) l x.
End ZArray.

(** ** hashmap.c *)

Definition INITIAL_SIZE : Z := 256.
Definition MAX_CHAIN_LENGTH : Z := 8.

(** Modelled from the spec: the header [hashmap.h] is not among the
    sources.  Its status macros ([MAP_OK], [MAP_MISSING], [MAP_FULL],
    [MAP_OMEM]) are the constructors of an enumeration: the spec only
    tells them apart ("FULL", "not-found", success), and the code only
    compares them with each other and, for [MAP_FULL], with slot
    indices, which it is taken not to be. *)
Inductive status : Type := MAP_MISSING | MAP_FULL | MAP_OMEM | MAP_OK.

Definition status_eqb (a b : status) : bool :=
  match a, b with
  | MAP_MISSING, MAP_MISSING | MAP_FULL, MAP_FULL
  | MAP_OMEM, MAP_OMEM | MAP_OK, MAP_OK => true
  | _, _ => false
  end.

(** What [hashmap_hash] returns: a slot index or [MAP_FULL]. *)
Inductive location : Type := At (index : Z) | Full.

Definition NULL : Z := 0.

Record hashmap_element : Type := mk_element
  { key : Z; in_use : Z; data : Z }.

Record hashmap_map : Type := mk_map
  { table_size : Z; size : Z; slots : list hashmap_element }.

(** A cell as [calloc] returns it. *)
Definition zero_element : hashmap_element := mk_element 0 0 NULL.

Definition slot (m : hashmap_map) (i : Z) : hashmap_element :=
  Zget zero_element (slots m) i.

Definition calloc_elements (n : Z) : list hashmap_element :=
  repeat zero_element (Z.to_nat n).

Definition hashmap_new : hashmap_map :=
  mk_map INITIAL_SIZE 0 (calloc_elements INITIAL_SIZE).

(** Conversion to [unsigned int]. *)
Definition to_uint (z : Z) : Z := z mod 2 ^ 32.

(** [hashmap_hash_int]: Jenkins' 32 bit mix, Knuth's multiplicative step,
    then the remainder by the table size (converted to [unsigned int] by
    the usual arithmetic conversions). *)
Definition hashmap_hash_int (m : hashmap_map) (inKey : Z) : Z :=
  let key := to_uint inKey in
  let key := to_uint (key + Z.shiftl key 12) in
  let key := Z.lxor key (Z.shiftr key 22) in
  let key := to_uint (key + Z.shiftl key 4) in
  let key := Z.lxor key (Z.shiftr key 9) in
  let key := to_uint (key + Z.shiftl key 10) in
  let key := Z.lxor key (Z.shiftr key 2) in
  let key := to_uint (key + Z.shiftl key 7) in
  let key := Z.lxor key (Z.shiftr key 12) in
  let key := to_uint (Z.shiftr key 3 * 2654435761) in
  key mod to_uint (table_size m).

(** One step of the linear probing: [curr = (curr + 1) % m->table_size]. *)
Definition next_slot (m : hashmap_map) (curr : Z) : Z :=
  Z.rem (curr + 1) (table_size m).

(** The loop of [hashmap_hash], [n] iterations left. *)
Fixpoint hash_loop (n : nat) (m : hashmap_map) (k : Z) (curr : Z) : location :=
  match n with
  | O => Full
  | S n' =>
      if in_use (slot m curr) =? 0 then At curr
      else if (in_use (slot m curr) =? 1) && (key (slot m curr) =? k) then At curr
      else hash_loop n' m k (next_slot m curr)
  end.

Definition hashmap_hash (m : hashmap_map) (k : Z) : location :=
  if size m >=? Z.quot (table_size m) 2 then Full
  else hash_loop (Z.to_nat MAX_CHAIN_LENGTH) m k (hashmap_hash_int m k).

(** The four assignments that end [hashmap_put]. *)
Definition store (m : hashmap_map) (index k value : Z) : hashmap_map :=
  mk_map (table_size m) (size m + 1)
         (Zset (slots m) index (mk_element k 1 value)).

(** The table [hashmap_rehash] switches to before it re-inserts. *)
Definition grown (m : hashmap_map) : hashmap_map :=
  mk_map (2 * table_size m) 0 (calloc_elements (2 * table_size m)).

(** The loop of [hashmap_rehash] over the [old_size] cells of the old
    array, with the insertion it calls as a parameter.  The table the
    insertion returns is the one the loop goes on with: a nested rehash
    replaces the array again, while the loop keeps reading the old one. *)
Fixpoint rehash_loop (put : hashmap_map -> Z -> Z -> option (status * hashmap_map))
         (old : list hashmap_element) (m : hashmap_map)
  : option (status * hashmap_map) :=
  match old with
  | [] => Some (MAP_OK, m)
  | curr :: rest =>
      if in_use curr =? 0 then rehash_loop put rest m
      else
        match put m (key curr) (data curr) with
        | Some (st, m') =>
            if status_eqb st MAP_OK then rehash_loop put rest m'
            else Some (st, m')
        | None => None
        end
  end.

(** An allocator that grants the requests of at most [L] cells. *)
Definition heap_limit (L : Z) : Z -> bool := fun n => n <=? L.

(** An allocator that grants nothing. *)
Definition no_memory : Z -> bool := fun _ => false.

(** The allocator refuses every request of more than [B] cells. *)
Definition bounded_by (calloc_ok : Z -> bool) (B : Z) : Prop :=
  forall n, calloc_ok n = true -> n <= B.

(** [hashmap_put], with the body of [hashmap_rehash] in its [while] loop.
    [calloc_ok (2 * table_size m)] is the outcome of the [calloc] of
    [hashmap_rehash]: when it fails the table is as it was and the
    insertion returns [MAP_OMEM].  A nested insertion that fails ends the
    loop of the rehash with the new array partly filled, and the
    insertion returns [MAP_OMEM] as well.  [fuel] bounds how many times
    the [while] loop may rehash and retry, and how deep the rehashes it
    starts may nest. *)
Fixpoint hashmap_put (calloc_ok : Z -> bool) (fuel : nat) (m : hashmap_map)
         (k value : Z) : option (status * hashmap_map) :=
  match hashmap_hash m k with
  | At index => Some (MAP_OK, store m index k value)
  | Full =>
      if calloc_ok (2 * table_size m) then
        match fuel with
        | O => None
        | S fuel' =>
            match rehash_loop (hashmap_put calloc_ok fuel') (slots m) (grown m) with
            | Some (st, m') =>
                if status_eqb st MAP_OMEM then Some (MAP_OMEM, m')
                else hashmap_put calloc_ok fuel' m' k value
            | None => None
            end
        end
      else Some (MAP_OMEM, m)
  end.

(** [hashmap_rehash]: [MAP_OMEM] with the table untouched when [calloc]
    fails, otherwise the loop over the old array. *)
Definition hashmap_rehash (calloc_ok : Z -> bool) (fuel : nat) (m : hashmap_map)
  : option (status * hashmap_map) :=
  if calloc_ok (2 * table_size m)
  then rehash_loop (hashmap_put calloc_ok fuel) (slots m) (grown m)
  else Some (MAP_OMEM, m).

(** The loop of [hashmap_get]. *)
Fixpoint get_loop (n : nat) (m : hashmap_map) (k : Z) (curr : Z) : Z :=
  match n with
  | O => NULL
  | S n' =>
      if (in_use (slot m curr) =? 1) && (key (slot m curr) =? k)
      then data (slot m curr)
      else get_loop n' m k (next_slot m curr)
  end.

Definition hashmap_get (m : hashmap_map) (k : Z) : Z :=
  get_loop (Z.to_nat MAX_CHAIN_LENGTH) m k (hashmap_hash_int m k).

(** Blanking a slot, as [hashmap_remove] and [hashmap_clear] do, and
    [m->size--]. *)
Definition blank (m : hashmap_map) (i : Z) : hashmap_map :=
  mk_map (table_size m) (size m - 1) (Zset (slots m) i (mk_element NULL 0 NULL)).

Fixpoint remove_loop (n : nat) (m : hashmap_map) (k : Z) (curr : Z)
  : status * hashmap_map :=
  match n with
  | O => (MAP_MISSING, m)
  | S n' =>
      if (in_use (slot m curr) =? 1) && (key (slot m curr) =? k)
      then (MAP_OK, blank m curr)
      else remove_loop n' m k (next_slot m curr)
  end.

Definition hashmap_remove (m : hashmap_map) (k : Z) : status * hashmap_map :=
  remove_loop (Z.to_nat MAX_CHAIN_LENGTH) m k (hashmap_hash_int m k).

(** [hashmap_clear]: the body of the [for] loop ends in [return MAP_OK],
    so the loop runs its first iteration ([i = 0]) and no other. *)
Definition hashmap_clear (m : hashmap_map) : status * hashmap_map :=
  if 0 <? MAX_CHAIN_LENGTH then (MAP_OK, blank m 0) else (MAP_MISSING, m).

Definition hashmap_get_index (m : hashmap_map) (index : Z) : Z :=
  data (slot m index).

(** [hashmap_length] accepts a null map. *)
Definition hashmap_length (m : option hashmap_map) : Z :=
  match m with
  | Some m => size m
  | None => 0
  end.

(** ** BRSet.c *)

Module BRSetStruct.
Record t : Type := mk
  { map : hashmap_map;        (* the table [hashmap_new] returned *)
    hash : Z -> Z;            (* hash function *)
    eq : Z -> Z -> Z }.       (* equality function *)
End BRSetStruct.

Abbreviation BRSet := BRSetStruct.t.

(** Conversion of the [int] count to [size_t] (64 bits). *)
Definition to_size_t (z : Z) : Z := z mod 2 ^ 64.

Definition with_map (set : BRSet) (m : hashmap_map) : BRSet :=
  BRSetStruct.mk m (BRSetStruct.hash set) (BRSetStruct.eq set).

(** [BRSetNew] with [_BRSetInit]; [capacity] is asserted non-negative and
    otherwise unused. *)
Definition BRSetNew (hash : Z -> Z) (eq : Z -> Z -> Z) (capacity : Z) : BRSet :=
  BRSetStruct.mk hashmap_new hash eq.

(** [BRSetAdd]; the status [hashmap_put] returns is dropped, as in the
    source. *)
Definition BRSetAdd (calloc_ok : Z -> bool) (fuel : nat) (set : BRSet) (item : Z)
  : option (BRSet * Z) :=
  if item =? NULL then None
  else
    let hash := BRSetStruct.hash set item in
    let t := hashmap_get (BRSetStruct.map set) hash in
    match hashmap_put calloc_ok fuel (BRSetStruct.map set) hash item with
    | Some (_, m') => Some (with_map set m', t)
    | None => None
    end.

Definition BRSetRemove (set : BRSet) (item : Z) : option (BRSet * Z) :=
  if item =? NULL then None
  else
    let hash := BRSetStruct.hash set item in
    let r := hashmap_get (BRSetStruct.map set) hash in
    Some (with_map set (snd (hashmap_remove (BRSetStruct.map set) hash)), r).

Definition BRSetClear (set : BRSet) : BRSet :=
  with_map set (snd (hashmap_clear (BRSetStruct.map set))).

Definition BRSetCount (set : BRSet) : Z :=
  to_size_t (hashmap_length (Some (BRSetStruct.map set))).

Definition BRSetGet (set : BRSet) (item : Z) : option Z :=
  if item =? NULL then None
  else Some (hashmap_get (BRSetStruct.map set) (BRSetStruct.hash set item)).

Definition BRSetContains (set : BRSet) (item : Z) : option bool :=
  match BRSetGet set item with
  | Some t => Some (negb (t =? NULL))
  | None => None
  end.

(** The [while] loop of [BRSetApply], [n] iterations left; [apply]
    updates what [info] points to. *)
Fixpoint apply_loop {I : Type} (n : nat) (m : hashmap_map) (i : Z)
         (info : I) (apply : I -> Z -> I) : I :=
  match n with
  | O => info
  | S n' =>
      let t := hashmap_get_index m i in
      apply_loop n' m (i + 1) (if t =? NULL then info else apply info t) apply
  end.

Definition BRSetApply {I : Type} (set : BRSet) (info : I) (apply : I -> Z -> I) : I :=
  let size := to_size_t (hashmap_length (Some (BRSetStruct.map set))) in
  apply_loop (Z.to_nat size) (BRSetStruct.map set) 0 info apply.

(** ** Runs of several operations *)

(** Insertions of key/value pairs, one after the other, whatever they
    return.  The run uses one allocator: as long as every request is
    granted the requests of a run grow strictly, as the capacity does. *)
Fixpoint put_all (calloc_ok : Z -> bool) (fuel : nat) (m : hashmap_map)
         (kvs : list (Z * Z)) : option hashmap_map :=
  match kvs with
  | [] => Some m
  | (k, v) :: rest =>
      match hashmap_put calloc_ok fuel m k v with
      | Some (_, m') => put_all calloc_ok fuel m' rest
      | None => None
      end
  end.

(** Every insertion of the run returns [MAP_OK]. *)
Fixpoint puts_ok (calloc_ok : Z -> bool) (fuel : nat) (m : hashmap_map)
         (kvs : list (Z * Z)) : bool :=
  match kvs with
  | [] => true
  | (k, v) :: rest =>
      match hashmap_put calloc_ok fuel m k v with
      | Some (st, m') => status_eqb st MAP_OK && puts_ok calloc_ok fuel m' rest
      | None => false
      end
  end.

Fixpoint add_all (calloc_ok : Z -> bool) (fuel : nat) (set : BRSet)
         (items : list Z) : option BRSet :=
  match items with
  | [] => Some set
  | item :: rest =>
      match BRSetAdd calloc_ok fuel set item with
      | Some (set', _) => add_all calloc_ok fuel set' rest
      | None => None
      end
  end.

(** No item of the run is [NULL] and every insertion into the table that
    [BRSetAdd] makes returns [MAP_OK]. *)
Fixpoint adds_ok (calloc_ok : Z -> bool) (fuel : nat) (set : BRSet)
         (items : list Z) : bool :=
  match items with
  | [] => true
  | item :: rest =>
      negb (item =? NULL) &&
      match hashmap_put calloc_ok fuel (BRSetStruct.map set)
                        (BRSetStruct.hash set item) item with
      | Some (st, m') =>
          status_eqb st MAP_OK && adds_ok calloc_ok fuel (with_map set m') rest
      | None => false
      end
  end.

(** ** Specification vocabulary *)

(** The slot the probing reaches [j] steps after [curr]. *)
Fixpoint walk (m : hashmap_map) (curr : Z) (j : nat) : Z :=
  match j with
  | O => curr
  | S j' => walk m (next_slot m curr) j'
  end.

(** The [j]-th slot on the probe path of key [k]. *)
Definition probe (m : hashmap_map) (k : Z) (j : nat) : Z :=
  walk m (hashmap_hash_int m k) j.

(** The test of [hashmap_get] and [hashmap_remove] on a cell. *)
Definition matches (e : hashmap_element) (k : Z) : Prop :=
  in_use e = 1 /\ key e = k.

(** The test of [hashmap_rehash] on a cell, together with the key. *)
Definition holds (k : Z) (e : hashmap_element) : bool :=
  negb (in_use e =? 0) && (key e =? k).

Definition used (e : hashmap_element) : bool := negb (in_use e =? 0).

(** Number of occupied slots. *)
Definition occupied (m : hashmap_map) : Z :=
  Z.of_nat (length (filter used (slots m))).

(** Some occupied slot carries key [k]. *)
Definition stored (m : hashmap_map) (k : Z) : Prop :=
  exists e, In e (slots m) /\ in_use e <> 0 /\ key e = k.

(** The array has [table_size] cells. *)
Definition wf (m : hashmap_map) : Prop :=
  0 < table_size m /\ Z.of_nat (length (slots m)) = table_size m.

(** Slot [s] is where the insertion probe of its key ends: it lies on the
    probe path of its key, within the bound, behind occupied slots of
    other keys only. *)
Definition placed (m : hashmap_map) (s : Z) : Prop :=
  exists j, (j < Z.to_nat MAX_CHAIN_LENGTH)%nat /\
    probe m (key (slot m s)) j = s /\
    forall i, (i < j)%nat ->
      in_use (slot m (probe m (key (slot m s)) i)) <> 0 /\
      key (slot m (probe m (key (slot m s)) i)) <> key (slot m s).

(** The shape insertions alone give a table: no holes on probe paths. *)
Definition compact (m : hashmap_map) : Prop :=
  wf m /\
  forall s, 0 <= s < table_size m -> in_use (slot m s) <> 0 ->
    in_use (slot m s) = 1 /\ placed m s.

(** Table states the operations of [hashmap.c] reach from [hashmap_new]. *)
Inductive reachable : hashmap_map -> Prop :=
| reach_new : reachable hashmap_new
| reach_put calloc_ok fuel m k v st m' :
    reachable m -> hashmap_put calloc_ok fuel m k v = Some (st, m') -> reachable m'
| reach_remove m k : reachable m -> reachable (snd (hashmap_remove m k))
| reach_clear m : reachable m -> reachable (snd (hashmap_clear m)).

(** What an insertion into a table without holes achieves: the key is
    found with the new value, the other keys are found as before, and the
    count follows the occupied slots when the key is new. *)
Definition put_ok (m : hashmap_map) (k v : Z) (r : status * hashmap_map) : Prop :=
  fst r = MAP_OK /\ compact (snd r) /\
  hashmap_get (snd r) k = v /\
  (forall k', k' <> k -> hashmap_get (snd r) k' = hashmap_get m k') /\
  (forall k', stored (snd r) k' <-> k' = k \/ stored m k') /\
  (~ stored m k -> occupied (snd r) = occupied m + 1) /\
  (size m = occupied m -> ~ stored m k -> size (snd r) = occupied (snd r)) /\
  table_size m <= table_size (snd r).

(** What a rehash of a table without holes achieves. *)
Definition rehash_ok (m : hashmap_map) (r : status * hashmap_map) : Prop :=
  fst r = MAP_OK /\ compact (snd r) /\
  (forall k, hashmap_get (snd r) k = hashmap_get m k) /\
  (forall k, stored (snd r) k <-> stored m k) /\
  occupied (snd r) = occupied m /\
  size (snd r) = occupied (snd r) /\
  2 * table_size m <= table_size (snd r).

(** [n] calls of [hashmap_clear] in a row. *)
Fixpoint clear_times (n : nat) (m : hashmap_map) : hashmap_map :=
  match n with
  | O => m
  | S n' => clear_times n' (snd (hashmap_clear m))
  end.

(** A check of pairwise distinctness that computes. *)
Fixpoint distinctb (l : list Z) : bool :=
  match l with
  | [] => true
  | x :: rest => negb (existsb (Z.eqb x) rest) && distinctb rest
  end.

(** The integers [a], [a + 1], ..., [a + n - 1], each stored under
    itself. *)
Definition identity_entries (a : nat) (n : nat) : list (Z * Z) :=
  map (fun i => (Z.of_nat i, Z.of_nat i)) (seq a n).

(** The integers 1, ..., [n] as items. *)
Definition first_items (n : nat) : list Z := map Z.of_nat (seq 1 n).

(** The key/value pairs the additions of [items] insert. *)
Definition entries_of (hash : Z -> Z) (items : list Z) : list (Z * Z) :=
  map (fun item => (hash item, item)) items.

(** A table without holes that holds the entries [done], each once, and
    counts them. *)
Definition holds_entries (m : hashmap_map) (done : list (Z * Z)) : Prop :=
  compact m /\
  size m = occupied m /\
  occupied m = Z.of_nat (length done) /\
  (forall k, stored m k <-> In k (map fst done)) /\
  (forall k v, In (k, v) done -> hashmap_get m k = v).

(** The shape the operations keep: the array has [table_size] cells, the
    capacity is [INITIAL_SIZE] doubled some number of times, and a cell
    either is in use with flag 1 or is as [calloc] gave it. *)
Definition kept (m : hashmap_map) : Prop :=
  wf m /\
  (exists j : nat, table_size m = INITIAL_SIZE * 2 ^ Z.of_nat j) /\
  forall e, In e (slots m) -> in_use e = 1 \/ e = zero_element.

(** The value the last pair with key [k] in [kvs] carries, [d] when there
    is none. *)
Fixpoint assoc_last (kvs : list (Z * Z)) (k : Z) (d : Z) : Z :=
  match kvs with
  | [] => d
  | (k', v) :: rest => assoc_last rest k (if k' =? k then v else d)
  end.

(** A table of [T] slots whose slots 0, ..., [j - 1] hold the first [j]
    cells of [c], the other slots being empty; [n] is [T - 8]. *)
Definition filled (T : Z) (c : list hashmap_element) (j : nat) (n : nat)
  : hashmap_map :=
  mk_map T (Z.of_nat j)
         (firstn j c ++ repeat zero_element (8 - j) ++ repeat zero_element n).

(** Eight cells in use whose keys are pairwise distinct multiples of
    [2 ^ 32]. *)
Definition colliding (c : list hashmap_element) : Prop :=
  length c = 8%nat /\
  NoDup (map key c) /\
  forall e, In e c -> in_use e = 1 /\ to_uint (key e) = 0.

(** The cell an insertion of the pair writes. *)
Definition cell_of (kv : Z * Z) : hashmap_element :=
  mk_element (fst kv) 1 (snd kv).

(** ** Facts on arrays *)

Section ZArrayFacts.
Context {A : Type}.
Implicit Types (l : list A) (x d : A).

Lemma length_upd_nth n l x : length (upd_nth n l x) = length l.
Proof.
  revert n; induction l as [|h t IH]; intros [|n]; simpl; auto.
Qed.

Lemma nth_upd_nth n n' l x d :
  nth n' (upd_nth n l x) d =
  if ((n =? n') && (n <? length l))%nat then x else nth n' l d.
Proof.
  revert n n'; induction l as [|h t IH]; intros [|n] [|n']; simpl;
    try rewrite Bool.andb_false_r; try rewrite IH; reflexivity.
Qed.

Lemma Zget_Zset_same d l i x :
  0 <= i < Z.of_nat (length l) -> Zget d (Zset l i x) i = x.
Proof.
  intros H. unfold Zget, Zset. rewrite nth_upd_nth.
  rewrite Nat.eqb_refl. simpl.
  destruct (Nat.ltb_spec (Z.to_nat i) (length l)); [reflexivity|lia].
Qed.

Lemma Zget_Zset_other d l i j x :
  0 <= i -> 0 <= j -> i <> j -> Zget d (Zset l i x) j = Zget d l j.
Proof.
  intros Hi Hj Hne. unfold Zget, Zset. rewrite nth_upd_nth.
  destruct (Nat.eqb_spec (Z.to_nat i) (Z.to_nat j)); [lia|reflexivity].
Qed.

Lemma Zget_In_or_default d l i : In (Zget d l i) l \/ Zget d l i = d.
Proof.
  unfold Zget. destruct (nth_in_or_default (Z.to_nat i) l d); auto.
Qed.

Lemma In_Zget d l x :
  In x l -> exists i, 0 <= i < Z.of_nat (length l) /\ Zget d l i = x.
Proof.
  intros H. destruct (In_nth l x d H) as (n & Hn & Hx).
  exists (Z.of_nat n). split; [lia|]. unfold Zget.
  rewrite Nat2Z.id. exact Hx.
Qed.

Lemma Zget_In d l i : 0 <= i < Z.of_nat (length l) -> In (Zget d l i) l.
Proof. intros H. unfold Zget. apply nth_In. lia. Qed.

(** Counting the cells that pass a test, across an update. *)
Lemma filter_upd_nth (f : A -> bool) n l x d :
  (n < length l)%nat ->
  Z.of_nat (length (filter f (upd_nth n l x))) =
  Z.of_nat (length (filter f l))
  - (if f (nth n l d) then 1 else 0) + (if f x then 1 else 0).
Proof.
  revert n; induction l as [|h t IH]; intros [|n] Hn;
    cbn [upd_nth filter nth length] in *; try lia.
  - destruct (f h), (f x); cbn [length]; lia.
  - specialize (IH n ltac:(lia)).
    destruct (f h); cbn [length]; lia.
Qed.
End ZArrayFacts.

(** ** The probe path *)

Lemma to_uint_range z : 0 <= to_uint z < 2 ^ 32.
Proof. unfold to_uint. apply Z.mod_pos_bound. lia. Qed.

Lemma hashmap_hash_int_range m k :
  0 < table_size m -> 0 <= hashmap_hash_int m k < table_size m.
Proof.
  intros Hts. unfold hashmap_hash_int. cbv zeta.
  match goal with
  | |- 0 <= to_uint ?e mod _ < _ =>
      pose proof (to_uint_range e) as Hx; generalize dependent (to_uint e)
  end.
  intros x Hx.
  assert (Hle : to_uint (table_size m) <= table_size m)
    by (unfold to_uint; apply Z.mod_le; lia).
  pose proof (to_uint_range (table_size m)) as Ht.
  destruct (Z.eq_dec (to_uint (table_size m)) 0) as [E|E].
  - rewrite E, Z.mod_0_r.
    assert (2 ^ 32 <= table_size m); [|lia].
    destruct (Z_lt_le_dec (table_size m) (2 ^ 32)) as [Hlt|]; [|assumption].
    unfold to_uint in E. rewrite Z.mod_small in E by lia. lia.
  - pose proof (Z.mod_pos_bound x (to_uint (table_size m))). lia.
Qed.

Lemma next_slot_range m c :
  0 < table_size m -> 0 <= c < table_size m -> 0 <= next_slot m c < table_size m.
Proof. intros Hts Hc. unfold next_slot. apply Z.rem_bound_pos; lia. Qed.

Lemma walk_range m c j :
  0 < table_size m -> 0 <= c < table_size m -> 0 <= walk m c j < table_size m.
Proof.
  intros Hts. revert c; induction j as [|j IH]; intros c Hc; simpl; [lia|].
  apply IH. now apply next_slot_range.
Qed.

Lemma probe_range m k j :
  0 < table_size m -> 0 <= probe m k j < table_size m.
Proof.
  intros Hts. apply walk_range; [assumption|].
  now apply hashmap_hash_int_range.
Qed.

Lemma walk_ext m m' c j :
  table_size m = table_size m' -> walk m c j = walk m' c j.
Proof.
  intros E. revert c; induction j as [|j IH]; intros c; simpl; [reflexivity|].
  unfold next_slot. rewrite E. apply IH.
Qed.

Lemma hashmap_hash_int_ext m m' k :
  table_size m = table_size m' -> hashmap_hash_int m k = hashmap_hash_int m' k.
Proof. intros E. unfold hashmap_hash_int. now rewrite E. Qed.

Lemma probe_ext m m' k j :
  table_size m = table_size m' -> probe m k j = probe m' k j.
Proof.
  intros E. unfold probe. rewrite (hashmap_hash_int_ext m m' k E).
  now apply walk_ext.
Qed.

Lemma matches_iff e k :
  (in_use e =? 1) && (key e =? k) = true <-> matches e k.
Proof.
  unfold matches. rewrite Bool.andb_true_iff, !Z.eqb_eq. tauto.
Qed.

Lemma matches_false e k :
  (in_use e =? 1) && (key e =? k) = false <-> ~ matches e k.
Proof.
  rewrite <- matches_iff. destruct (_ && _); split; congruence.
Qed.

(** ** The loops, in terms of the probe path *)

Lemma hash_loop_At n m k c idx :
  hash_loop n m k c = At idx ->
  exists j, (j < n)%nat /\ walk m c j = idx /\
    (forall i, (i < j)%nat ->
       in_use (slot m (walk m c i)) <> 0 /\ ~ matches (slot m (walk m c i)) k) /\
    (in_use (slot m idx) = 0 \/ matches (slot m idx) k).
Proof.
  revert c; induction n as [|n IH]; intros c; simpl; [discriminate|].
  destruct (Z.eqb_spec (in_use (slot m c)) 0) as [E0|E0].
  - intros [= <-]. exists O. repeat split; try lia; auto.
  - destruct (_ && _) eqn:Em.
    + intros [= <-]. exists O. apply matches_iff in Em.
      repeat split; try lia; auto.
    + intros H. destruct (IH _ H) as (j & Hj & Hw & Hbefore & Hat).
      exists (S j). repeat split; try lia; auto.
      * destruct i as [|i]; simpl; [assumption|]. apply Hbefore. lia.
      * destruct i as [|i]; simpl; [now apply matches_false|].
        apply Hbefore. lia.
Qed.

Lemma hash_loop_Full n m k c :
  hash_loop n m k c = Full ->
  forall i, (i < n)%nat ->
    in_use (slot m (walk m c i)) <> 0 /\ ~ matches (slot m (walk m c i)) k.
Proof.
  revert c; induction n as [|n IH]; intros c; simpl; [lia|].
  destruct (Z.eqb_spec (in_use (slot m c)) 0) as [E0|E0]; [discriminate|].
  destruct (_ && _) eqn:Em; [discriminate|].
  intros H [|i] Hi; simpl.
  - split; [assumption|now apply matches_false].
  - apply (IH _ H). lia.
Qed.

Lemma get_loop_found n m k c j :
  (j < n)%nat ->
  (forall i, (i < j)%nat -> ~ matches (slot m (walk m c i)) k) ->
  matches (slot m (walk m c j)) k ->
  get_loop n m k c = data (slot m (walk m c j)).
Proof.
  revert c j; induction n as [|n IH]; intros c j Hj Hbefore Hat; [lia|].
  simpl. destruct j as [|j]; simpl in *.
  - apply matches_iff in Hat. now rewrite Hat.
  - assert (E : (in_use (slot m c) =? 1) && (key (slot m c) =? k) = false)
      by (apply matches_false, (Hbefore O); lia).
    rewrite E. apply IH; [lia| |assumption].
    intros i Hi. apply (Hbefore (S i)). lia.
Qed.

Lemma get_loop_none n m k c :
  (forall i, (i < n)%nat -> ~ matches (slot m (walk m c i)) k) ->
  get_loop n m k c = NULL.
Proof.
  revert c; induction n as [|n IH]; intros c H; simpl; [reflexivity|].
  assert (E : (in_use (slot m c) =? 1) && (key (slot m c) =? k) = false)
    by (apply matches_false, (H O); lia).
  rewrite E. apply IH. intros i Hi. apply (H (S i)). lia.
Qed.

Lemma remove_loop_none n m k c :
  (forall i, (i < n)%nat -> ~ matches (slot m (walk m c i)) k) ->
  remove_loop n m k c = (MAP_MISSING, m).
Proof.
  revert c; induction n as [|n IH]; intros c H; simpl; [reflexivity|].
  assert (E : (in_use (slot m c) =? 1) && (key (slot m c) =? k) = false)
    by (apply matches_false, (H O); lia).
  rewrite E. apply IH. intros i Hi. apply (H (S i)). lia.
Qed.

Lemma hashmap_hash_At m k idx :
  hashmap_hash m k = At idx ->
  size m < Z.quot (table_size m) 2 /\
  exists j, (j < Z.to_nat MAX_CHAIN_LENGTH)%nat /\ probe m k j = idx /\
    (forall i, (i < j)%nat ->
       in_use (slot m (probe m k i)) <> 0 /\ ~ matches (slot m (probe m k i)) k) /\
    (in_use (slot m idx) = 0 \/ matches (slot m idx) k).
Proof.
  unfold hashmap_hash.
  destruct (Z.geb_spec (size m) (Z.quot (table_size m) 2)) as [Hge|Hlt].
  - discriminate.
  - intros H. split; [lia|]. now apply hash_loop_At.
Qed.

Lemma hashmap_hash_At_range m k idx :
  wf m -> hashmap_hash m k = At idx -> 0 <= idx < Z.of_nat (length (slots m)).
Proof.
  intros [Hts Hlen] H. apply hashmap_hash_At in H.
  destruct H as (_ & j & _ & <- & _). rewrite Hlen. now apply probe_range.
Qed.

(** ** Writing a slot *)

Lemma slot_store_same m idx k v :
  0 <= idx < Z.of_nat (length (slots m)) ->
  slot (store m idx k v) idx = mk_element k 1 v.
Proof. intros H. unfold slot, store; simpl. now apply Zget_Zset_same. Qed.

Lemma slot_store_other m idx k v s :
  0 <= idx -> 0 <= s -> s <> idx -> slot (store m idx k v) s = slot m s.
Proof.
  intros Hi Hs Hne. unfold slot, store; simpl. apply Zget_Zset_other; lia.
Qed.

Lemma probe_store m idx k v k' j : probe (store m idx k v) k' j = probe m k' j.
Proof. now apply probe_ext. Qed.

Lemma wf_store m idx k v : wf m -> wf (store m idx k v).
Proof.
  intros [Hts Hlen]. split; simpl; [assumption|].
  unfold Zset. now rewrite length_upd_nth.
Qed.

(** The slot [hashmap_hash] chose is not among those it skipped. *)
Lemma skipped_not_chosen m k idx p :
  (in_use (slot m idx) = 0 \/ matches (slot m idx) k) ->
  in_use (slot m p) <> 0 -> ~ matches (slot m p) k -> p <> idx.
Proof. intros [H0|Hm] Hu Hn ->; [now apply Hu|now apply Hn]. Qed.

Lemma get_store_same m k v idx :
  wf m -> hashmap_hash m k = At idx -> hashmap_get (store m idx k v) k = v.
Proof.
  intros Hwf H. pose proof (hashmap_hash_At_range _ _ _ Hwf H) as Hidx.
  destruct (hashmap_hash_At _ _ _ H) as (_ & j & Hj & Hp & Hbefore & Hat).
  destruct Hwf as [Hts Hlen].
  unfold hashmap_get.
  rewrite (hashmap_hash_int_ext _ m) by reflexivity.
  rewrite (get_loop_found _ _ _ _ j); try assumption.
  - rewrite (walk_ext _ m) by reflexivity. fold (probe m k j). rewrite Hp.
    now rewrite slot_store_same.
  - intros i Hi. rewrite (walk_ext _ m) by reflexivity. fold (probe m k i).
    destruct (Hbefore i Hi) as [Hu Hn].
    pose proof (probe_range m k i Hts).
    rewrite slot_store_other
      by (try lia; eapply skipped_not_chosen; eassumption).
    assumption.
  - rewrite (walk_ext _ m) by reflexivity. fold (probe m k j). rewrite Hp.
    rewrite slot_store_same by assumption. split; reflexivity.
Qed.

Lemma get_loop_store_other n m k v idx k' c :
  k' <> k -> 0 < table_size m -> 0 <= idx ->
  (in_use (slot m idx) = 0 \/ matches (slot m idx) k) ->
  0 <= c < table_size m ->
  get_loop n (store m idx k v) k' c = get_loop n m k' c.
Proof.
  intros Hk Hts Hidx Hat. revert c; induction n as [|n IH]; intros c Hc;
    simpl; [reflexivity|].
  change (next_slot (store m idx k v) c) with (next_slot m c).
  rewrite IH by now apply next_slot_range.
  destruct (Z.eq_dec c idx) as [->|Hne].
  - assert (E1 : (in_use (slot m idx) =? 1) && (key (slot m idx) =? k') = false).
    { apply matches_false. intros [Hu Hkey].
      destruct Hat as [H0|[_ Hk2]]; [lia|congruence]. }
    rewrite E1.
    destruct (Z_lt_le_dec idx (Z.of_nat (length (slots m)))) as [Hin|Hout].
    + rewrite slot_store_same by lia. simpl.
      destruct (Z.eqb_spec k k'); [congruence|reflexivity].
    + unfold slot at 1 2 3, store, Zget, Zset; simpl.
      rewrite nth_upd_nth.
      destruct (Nat.ltb_spec (Z.to_nat idx) (length (slots m))); [lia|].
      rewrite Bool.andb_false_r. fold (Zget zero_element (slots m) idx).
      fold (slot m idx). now rewrite E1.
  - rewrite slot_store_other by lia. reflexivity.
Qed.

Lemma get_store_other m k v idx k' :
  k' <> k -> 0 < table_size m -> hashmap_hash m k = At idx ->
  hashmap_get (store m idx k v) k' = hashmap_get m k'.
Proof.
  intros Hk Hts H.
  destruct (hashmap_hash_At _ _ _ H) as (_ & j & Hj & Hp & _ & Hat).
  unfold hashmap_get.
  rewrite (hashmap_hash_int_ext _ m) by reflexivity.
  apply get_loop_store_other; try assumption.
  - rewrite <- Hp. now apply probe_range.
  - now apply hashmap_hash_int_range.
Qed.

Lemma store_compact m k v idx :
  compact m -> hashmap_hash m k = At idx -> compact (store m idx k v).
Proof.
  intros [Hwf Hc] H. pose proof (hashmap_hash_At_range _ _ _ Hwf H) as Hidx.
  destruct (hashmap_hash_At _ _ _ H) as (_ & j & Hj & Hp & Hbefore & Hat).
  split; [now apply wf_store|].
  destruct Hwf as [Hts Hlen].
  intros s Hs. change (table_size (store m idx k v)) with (table_size m) in Hs.
  destruct (Z.eq_dec s idx) as [->|Hne].
  - intros _. rewrite slot_store_same by assumption. split; [reflexivity|].
    exists j. unfold placed. rewrite slot_store_same by assumption. simpl.
    rewrite !probe_store. split; [assumption|]. split; [assumption|].
    intros i Hi. rewrite probe_store. destruct (Hbefore i Hi) as [Hu Hn].
    pose proof (probe_range m k i Hts) as Hr.
    rewrite slot_store_other
      by (try lia; eapply skipped_not_chosen; eassumption).
    split; [assumption|].
    destruct (Hc _ Hr Hu) as [H1 _]. intros Hk. apply Hn. now split.
  - rewrite slot_store_other by lia. intros Hu.
    destruct (Hc s Hs Hu) as [H1 (j' & Hj' & Hp' & Hb')]. split; [assumption|].
    exists j'. unfold placed. rewrite slot_store_other by lia.
    rewrite !probe_store. split; [assumption|]. split; [assumption|].
    intros i Hi. rewrite probe_store. destruct (Hb' i Hi) as [Hu' Hk'].
    destruct (Z.eq_dec (probe m (key (slot m s)) i) idx) as [E|E].
    + rewrite E, slot_store_same by assumption. simpl.
      rewrite E in Hu', Hk'. split; [lia|].
      destruct Hat as [H0'|[_ Hkey]]; [lia|congruence].
    + pose proof (probe_range m (key (slot m s)) i Hts).
      rewrite slot_store_other by lia. now split.
Qed.

Lemma occupied_store m k v idx :
  0 <= idx < Z.of_nat (length (slots m)) ->
  occupied (store m idx k v) =
  occupied m + (if in_use (slot m idx) =? 0 then 1 else 0).
Proof.
  intros Hidx. unfold occupied, store, Zset; simpl.
  rewrite (filter_upd_nth used _ _ _ zero_element) by lia.
  fold (Zget zero_element (slots m) idx). fold (slot m idx).
  unfold used at 2 3. simpl.
  destruct (in_use (slot m idx) =? 0); simpl; lia.
Qed.

Lemma stored_iff_slot m k :
  stored m k <->
  exists s, 0 <= s < Z.of_nat (length (slots m)) /\
            in_use (slot m s) <> 0 /\ key (slot m s) = k.
Proof.
  split.
  - intros (e & Hin & Hu & Hk).
    destruct (In_Zget zero_element _ _ Hin) as (s & Hs & <-). now exists s.
  - intros (s & Hs & Hu & Hk). exists (slot m s). repeat split; try assumption.
    now apply Zget_In.
Qed.

Lemma stored_store m k v idx k' :
  wf m -> hashmap_hash m k = At idx ->
  stored (store m idx k v) k' <-> k' = k \/ stored m k'.
Proof.
  intros Hwf H. pose proof (hashmap_hash_At_range _ _ _ Hwf H) as Hidx.
  destruct (hashmap_hash_At _ _ _ H) as (_ & _ & _ & _ & _ & Hat).
  rewrite !stored_iff_slot.
  assert (Hlen : length (slots (store m idx k v)) = length (slots m))
    by (simpl; unfold Zset; apply length_upd_nth).
  rewrite Hlen. split.
  - intros (s & Hs & Hu & Hk). destruct (Z.eq_dec s idx) as [->|Hne].
    + rewrite slot_store_same in Hk by assumption. simpl in Hk. now left.
    + rewrite slot_store_other in Hu, Hk by lia. right. now exists s.
  - intros [->|(s & Hs & Hu & Hk)].
    + exists idx. rewrite slot_store_same by assumption. simpl.
      repeat split; lia.
    + destruct (Z.eq_dec s idx) as [->|Hne].
      * exists idx. rewrite slot_store_same by assumption. simpl.
        destruct Hat as [H0|[_ Hkey]]; [contradiction|].
        repeat split; lia.
      * exists s. rewrite slot_store_other by lia. now repeat split.
Qed.

(** ** Tables without holes *)

Lemma get_not_stored m k : ~ stored m k -> hashmap_get m k = NULL.
Proof.
  intros Hn. apply get_loop_none. intros i _ [Hu Hk]. apply Hn.
  unfold slot in *.
  destruct (Zget_In_or_default zero_element (slots m)
              (walk m (hashmap_hash_int m k) i)) as [Hin|Hd].
  - eexists. split; [exact Hin|]. split; [lia|assumption].
  - rewrite Hd in Hu. discriminate.
Qed.

Lemma compact_get m s :
  compact m -> 0 <= s < table_size m -> in_use (slot m s) <> 0 ->
  hashmap_get m (key (slot m s)) = data (slot m s).
Proof.
  intros [Hwf Hc] Hs Hu. destruct (Hc s Hs Hu) as [H1 (j & Hj & Hp & Hb)].
  unfold hashmap_get. rewrite (get_loop_found _ _ _ _ j); try assumption.
  - fold (probe m (key (slot m s)) j). now rewrite Hp.
  - intros i Hi [_ Hk]. now apply (Hb i Hi).
  - fold (probe m (key (slot m s)) j). rewrite Hp. now split.
Qed.

Lemma compact_unique m s1 s2 :
  compact m -> 0 <= s1 < table_size m -> 0 <= s2 < table_size m ->
  in_use (slot m s1) <> 0 -> in_use (slot m s2) <> 0 ->
  key (slot m s1) = key (slot m s2) -> s1 = s2.
Proof.
  intros [Hwf Hc] Hs1 Hs2 Hu1 Hu2 Hk.
  destruct (Hc s1 Hs1 Hu1) as [_ (j1 & Hj1 & Hp1 & Hb1)].
  destruct (Hc s2 Hs2 Hu2) as [_ (j2 & Hj2 & Hp2 & Hb2)].
  rewrite Hk in Hp1, Hb1.
  destruct (Nat.lt_trichotomy j1 j2) as [Hlt|[->|Hlt]].
  - destruct (Hb2 j1 Hlt) as [_ Hne]. rewrite Hp1 in Hne. congruence.
  - congruence.
  - destruct (Hb1 j2 Hlt) as [_ Hne]. rewrite Hp2 in Hne. congruence.
Qed.

Lemma NoDup_keys_of_unique (l : list hashmap_element) :
  (forall i j, (i < length l)%nat -> (j < length l)%nat ->
     used (nth i l zero_element) = true -> used (nth j l zero_element) = true ->
     key (nth i l zero_element) = key (nth j l zero_element) -> i = j) ->
  NoDup (map key (filter used l)).
Proof.
  induction l as [|a l IH]; intros Huniq; simpl; [constructor|].
  assert (Htail : NoDup (map key (filter used l))).
  { apply IH. intros i j Hi Hj Hui Huj Hk.
    assert (S i = S j) by (apply Huniq; simpl; auto; lia). lia. }
  destruct (used a) eqn:Ha; [|assumption].
  simpl. constructor; [|assumption].
  intros Hin. apply in_map_iff in Hin. destruct Hin as (e & Hk & Hin).
  apply filter_In in Hin. destruct Hin as [Hin Hue].
  destruct (In_nth _ _ zero_element Hin) as (n & Hn & Hnth).
  assert (O = S n); [|discriminate].
  apply Huniq; simpl; try lia; try assumption; now rewrite Hnth.
Qed.

Lemma used_true e : used e = true <-> in_use e <> 0.
Proof. unfold used. destruct (Z.eqb_spec (in_use e) 0); simpl; split; auto; congruence. Qed.

Lemma holds_true k e : holds k e = true <-> in_use e <> 0 /\ key e = k.
Proof.
  unfold holds. rewrite Bool.andb_true_iff, Z.eqb_eq. fold (used e).
  now rewrite used_true.
Qed.

Lemma compact_NoDup m : compact m -> NoDup (map key (filter used (slots m))).
Proof.
  intros Hc. pose proof Hc as [[Hts Hlen] _]. apply NoDup_keys_of_unique.
  intros i j Hi Hj Hui Huj Hk.
  assert (Z.of_nat i = Z.of_nat j); [|lia].
  apply (compact_unique m); try assumption; try lia;
    unfold slot, Zget; rewrite ?Nat2Z.id; try assumption;
    now apply used_true.
Qed.

Lemma find_holds_not_stored m k :
  find (holds k) (slots m) = None -> ~ stored m k.
Proof.
  intros H (e & Hin & Hu & Hk).
  pose proof (find_none _ _ H e Hin) as Hf.
  assert (holds k e = true) by now apply holds_true. congruence.
Qed.

Lemma compact_get_find m k :
  compact m ->
  hashmap_get m k =
  match find (holds k) (slots m) with Some e => data e | None => NULL end.
Proof.
  intros Hc. destruct (find (holds k) (slots m)) as [e|] eqn:Hf.
  - apply find_some in Hf. destruct Hf as [Hin Hh].
    apply holds_true in Hh. destruct Hh as [Hu Hk].
    destruct (In_Zget zero_element _ _ Hin) as (s & Hs & Hslot).
    fold (slot m s) in Hslot. pose proof Hc as [[Hts Hlen] _].
    rewrite <- Hk, <- Hslot. apply compact_get; try assumption; try lia.
    now rewrite Hslot.
  - now apply get_not_stored, find_holds_not_stored.
Qed.

(** ** The table a rehash starts from *)

Lemma In_calloc e n : In e (calloc_elements n) -> e = zero_element.
Proof. unfold calloc_elements. intros H. now apply repeat_spec in H. Qed.

Lemma not_stored_grown m k : ~ stored (grown m) k.
Proof.
  intros (e & Hin & Hu & _). apply In_calloc in Hin. subst e. now apply Hu.
Qed.

Lemma occupied_calloc n : filter used (calloc_elements n) = [].
Proof.
  unfold calloc_elements. induction (Z.to_nat n) as [|n' IH]; simpl; auto.
Qed.

Lemma slot_calloc ts sz n s : slot (mk_map ts sz (calloc_elements n)) s = zero_element.
Proof.
  unfold slot, Zget; simpl.
  destruct (nth_in_or_default (Z.to_nat s) (calloc_elements n) zero_element)
    as [Hin|Hd]; [now apply In_calloc in Hin|assumption].
Qed.

Lemma compact_grown m : 0 < table_size m -> compact (grown m).
Proof.
  intros Hts. split.
  - unfold wf, grown; cbn [table_size slots]. split; [lia|].
    unfold calloc_elements. rewrite repeat_length. lia.
  - intros s _ Hu. unfold grown in Hu. rewrite slot_calloc in Hu.
    now contradiction Hu.
Qed.

Lemma compact_new : compact hashmap_new.
Proof.
  split.
  - unfold wf, hashmap_new; cbn [table_size slots]. split; [reflexivity|].
    unfold calloc_elements. rewrite repeat_length. reflexivity.
  - intros s _ Hu. unfold hashmap_new in Hu. rewrite slot_calloc in Hu.
    now contradiction Hu.
Qed.

Lemma not_stored_new k : ~ stored hashmap_new k.
Proof.
  intros (e & Hin & Hu & _). apply In_calloc in Hin. subst e. now apply Hu.
Qed.

(** ** Insertion and rehash on tables without holes *)

Lemma hashmap_put_eq calloc_ok fuel m k v :
  hashmap_put calloc_ok fuel m k v =
  match hashmap_hash m k with
  | At index => Some (MAP_OK, store m index k v)
  | Full =>
      match fuel with
      | O => if calloc_ok (2 * table_size m) then None else Some (MAP_OMEM, m)
      | S fuel' =>
          match hashmap_rehash calloc_ok fuel' m with
          | Some (st, m') =>
              if status_eqb st MAP_OMEM then Some (MAP_OMEM, m')
              else hashmap_put calloc_ok fuel' m' k v
          | None => None
          end
      end
  end.
Proof.
  unfold hashmap_rehash.
  destruct fuel; cbn [hashmap_put]; destruct (hashmap_hash m k);
    try reflexivity; destruct (calloc_ok (2 * table_size m)); reflexivity.
Qed.

Lemma status_eqb_eq a b : status_eqb a b = true <-> a = b.
Proof. destruct a, b; simpl; split; congruence. Qed.

(** The statuses of an insertion and of a rehash. *)
Lemma rehash_loop_status put es :
  (forall m k v st m', put m k v = Some (st, m') -> st = MAP_OK \/ st = MAP_OMEM) ->
  forall acc st m', rehash_loop put es acc = Some (st, m') ->
  st = MAP_OK \/ st = MAP_OMEM.
Proof.
  intros Hput. induction es as [|e es IH]; intros acc st m' Hrun.
  - injection Hrun as <- _. now left.
  - cbn [rehash_loop] in Hrun. destruct (in_use e =? 0); [now apply (IH acc st m')|].
    destruct (put acc (key e) (data e)) as [[st1 m1]|] eqn:Hp; [|discriminate].
    destruct (status_eqb st1 MAP_OK) eqn:E; [now apply (IH m1 st m')|].
    injection Hrun as <- _. now apply (Hput _ _ _ _ _ Hp).
Qed.

Lemma hashmap_put_status calloc_ok fuel : forall m k v st m',
  hashmap_put calloc_ok fuel m k v = Some (st, m') ->
  st = MAP_OK \/ st = MAP_OMEM.
Proof.
  induction fuel as [|fuel IH]; intros m k v st m' Hrun;
    cbn [hashmap_put] in Hrun;
    (destruct (hashmap_hash m k); [injection Hrun as <- _; now left|]);
    (destruct (calloc_ok (2 * table_size m));
      [|injection Hrun as <- _; now right]); [discriminate|].
  destruct (rehash_loop (hashmap_put calloc_ok fuel) (slots m) (grown m))
    as [[st1 m1]|]; [|discriminate].
  destruct (status_eqb st1 MAP_OMEM).
  - injection Hrun as <- _. now right.
  - now apply (IH m1 k v st m').
Qed.

Lemma hashmap_rehash_status calloc_ok fuel m st m' :
  hashmap_rehash calloc_ok fuel m = Some (st, m') ->
  st = MAP_OK \/ st = MAP_OMEM.
Proof.
  unfold hashmap_rehash. destruct (calloc_ok (2 * table_size m)).
  - apply rehash_loop_status. apply hashmap_put_status.
  - intros H. injection H as <- _. now right.
Qed.

Lemma put_ok_store m k v idx :
  compact m -> hashmap_hash m k = At idx ->
  put_ok m k v (MAP_OK, store m idx k v).
Proof.
  intros Hc H. pose proof Hc as [Hwf _]. pose proof Hwf as [Hts Hlen].
  pose proof (hashmap_hash_At_range _ _ _ Hwf H) as Hidx.
  destruct (hashmap_hash_At _ _ _ H) as (_ & _ & _ & _ & _ & Hat).
  assert (Hempty : ~ stored m k -> in_use (slot m idx) = 0).
  { intros Hn. destruct Hat as [H0|[Hu Hk]]; [assumption|].
    exfalso. apply Hn. apply stored_iff_slot. exists idx. repeat split; lia. }
  unfold put_ok; simpl. split; [reflexivity|]. split; [now apply store_compact|].
  split; [now apply get_store_same|].
  split; [intros k' Hk'; now apply get_store_other|].
  split; [intros k'; now apply stored_store|].
  split; [|split; [|lia]].
  - intros Hn. rewrite occupied_store by assumption.
    now rewrite (Hempty Hn).
  - intros Hsz Hn. rewrite occupied_store by assumption.
    rewrite (Hempty Hn). simpl. lia.
Qed.

Section RehashLoop.
Variable put : hashmap_map -> Z -> Z -> option (status * hashmap_map).
Hypothesis put_spec :
  forall m k v r, compact m -> put m k v = Some r -> fst r = MAP_OK ->
                  put_ok m k v r.

Lemma rehash_loop_ok es : forall acc r,
  compact acc -> size acc = occupied acc ->
  NoDup (map key (filter used es)) ->
  (forall e, In e es -> used e = true -> ~ stored acc (key e)) ->
  rehash_loop put es acc = Some r -> fst r = MAP_OK ->
  compact (snd r) /\
  size (snd r) = occupied (snd r) /\
  occupied (snd r) = occupied acc + Z.of_nat (length (filter used es)) /\
  (forall k, stored (snd r) k <-> stored acc k \/ In k (map key (filter used es))) /\
  (forall k, hashmap_get (snd r) k =
             match find (holds k) es with
             | Some e => data e
             | None => hashmap_get acc k
             end) /\
  table_size acc <= table_size (snd r).
Proof.
  induction es as [|e es IH]; intros acc r Hc Hsz Hnd Hfresh Hrun Hok.
  - simpl in Hrun. injection Hrun as <-. simpl.
    split; [assumption|]. split; [assumption|].
    split; [lia|]. split; [intros k; tauto|]. split; [reflexivity|lia].
  - cbn [rehash_loop] in Hrun. cbn [filter find] in Hnd |- *.
    destruct (Z.eqb_spec (in_use e) 0) as [E0|E0].
    + assert (Hue : used e = false) by (unfold used; now rewrite E0).
      assert (Hh : forall k, holds k e = false)
        by (intros k; unfold holds; now rewrite E0).
      rewrite Hue in Hnd |- *.
      destruct (IH acc r) as (R2 & R3 & R4 & R5 & R6 & R7);
        try assumption.
      * intros e' Hin. apply Hfresh. now right.
      * repeat (split; [assumption|]). split; [|assumption].
        intros k. now rewrite Hh.
    + assert (Hue : used e = true) by now apply used_true.
      assert (Hh : forall k, holds k e = (key e =? k))
        by (intros k; unfold holds; fold (used e); now rewrite Hue).
      rewrite Hue in Hnd |- *. cbn [map] in Hnd |- *.
      apply NoDup_cons_iff in Hnd. destruct Hnd as [Hnotin Hnd].
      destruct (put acc (key e) (data e)) as [[st m']|] eqn:Hput;
        [|discriminate].
      destruct (status_eqb st MAP_OK) eqn:Est;
        [|injection Hrun as <-; cbn [fst] in Hok; subst st; discriminate].
      apply status_eqb_eq in Est.
      pose proof (put_spec _ _ _ _ Hc Hput Est) as
        (Hst & Hc' & Hget & Hother & Hstored & Hocc & Hsize & Hts).
      cbn [fst snd] in Hst, Hc', Hget, Hother, Hstored, Hocc, Hsize, Hts.
      assert (Hfresh_e : ~ stored acc (key e))
        by (apply Hfresh; [now left|assumption]).
      destruct (IH m' r) as (R2 & R3 & R4 & R5 & R6 & R7);
        try assumption.
      * now apply Hsize.
      * intros e' Hin Hue' Hs. apply Hstored in Hs. destruct Hs as [Hk|Hs].
        -- apply Hnotin. rewrite <- Hk. apply in_map, filter_In. now split.
        -- now apply (Hfresh e' (or_intror Hin)).
      * split; [assumption|]. split; [assumption|].
        split; [|split; [|split; [|lia]]].
        -- rewrite R4, (Hocc Hfresh_e). cbn [length]. lia.
        -- intros k. rewrite R5, Hstored. cbn [map In]. intuition congruence.
        -- intros k. rewrite R6, Hh.
           destruct (Z.eqb_spec (key e) k) as [Ek|Ek].
           ++ destruct (find (holds k) es) as [e'|] eqn:Hf.
              ** exfalso. apply find_some in Hf. destruct Hf as [Hin Hhe].
                 apply holds_true in Hhe. destruct Hhe as [Hu' Hk'].
                 apply Hnotin. rewrite Ek, <- Hk'.
                 apply in_map, filter_In. split; [assumption|].
                 now apply used_true.
              ** now rewrite <- Ek.
           ++ destruct (find (holds k) es); [reflexivity|].
              apply Hother. congruence.
Qed.
End RehashLoop.

Lemma hashmap_rehash_ok calloc_ok fuel m r :
  (forall m k v r, compact m -> hashmap_put calloc_ok fuel m k v = Some r ->
                   fst r = MAP_OK -> put_ok m k v r) ->
  compact m -> hashmap_rehash calloc_ok fuel m = Some r -> fst r = MAP_OK ->
  rehash_ok m r.
Proof.
  intros Hput Hc Hrun Hok. pose proof Hc as [[Hts Hlen] _].
  unfold hashmap_rehash in Hrun.
  destruct (calloc_ok (2 * table_size m));
    [|injection Hrun as <-; discriminate].
  destruct (rehash_loop_ok _ Hput (slots m) (grown m) r)
    as (R2 & R3 & R4 & R5 & R6 & R7); try assumption.
  - now apply compact_grown.
  - unfold occupied, grown; cbn [size slots]. now rewrite occupied_calloc.
  - now apply compact_NoDup.
  - intros e _ _. apply not_stored_grown.
  - unfold rehash_ok. split; [assumption|]. split; [assumption|].
    split; [|split; [|split; [|split; [assumption|exact R7]]]].
    + intros k. rewrite R6, (compact_get_find m k Hc).
      destruct (find (holds k) (slots m)); [reflexivity|].
      apply get_not_stored, not_stored_grown.
    + intros k. rewrite R5. split.
      * intros [Hs|Hin]; [now apply not_stored_grown in Hs|].
        apply in_map_iff in Hin. destruct Hin as (e & Hk & Hin).
        apply filter_In in Hin. destruct Hin as [Hin Hu].
        exists e. repeat split; try assumption. now apply used_true.
      * intros (e & Hin & Hu & Hk). right. rewrite <- Hk.
        apply in_map, filter_In. split; [assumption|]. now apply used_true.
    + rewrite R4. unfold occupied at 1, grown; cbn [slots].
      rewrite occupied_calloc. reflexivity.
Qed.

Lemma hashmap_put_ok calloc_ok fuel : forall m k v r,
  compact m -> hashmap_put calloc_ok fuel m k v = Some r -> fst r = MAP_OK ->
  put_ok m k v r.
Proof.
  induction fuel as [|fuel IH]; intros m k v r Hc Hrun Hok;
    rewrite hashmap_put_eq in Hrun;
    destruct (hashmap_hash m k) as [idx|] eqn:Hh;
    try (injection Hrun as <-; now apply put_ok_store).
  - destruct (calloc_ok (2 * table_size m)); [discriminate|].
    injection Hrun as <-. discriminate.
  - destruct (hashmap_rehash calloc_ok fuel m) as [[st m1]|] eqn:Hre;
      [|discriminate].
    destruct (hashmap_rehash_status _ _ _ _ _ Hre) as [-> | ->];
      cbn [status_eqb] in Hrun; [|injection Hrun as <-; discriminate].
    pose proof (hashmap_rehash_ok _ _ _ _ IH Hc Hre eq_refl) as
      (Hst & Hc1 & Hget1 & Hstored1 & Hocc1 & Hsz1 & Hts1).
    cbn [fst snd] in Hst, Hc1, Hget1, Hstored1, Hocc1, Hsz1, Hts1.
    pose proof (IH _ _ _ _ Hc1 Hrun Hok) as (P1 & P2 & P3 & P4 & P5 & P6 & P7 & P8).
    pose proof Hc as [[Hts _] _].
    unfold put_ok. split; [assumption|]. split; [assumption|].
    split; [assumption|].
    split; [intros k' Hk'; rewrite (P4 k' Hk'); apply Hget1|].
    split; [intros k'; rewrite P5, Hstored1; reflexivity|].
    split; [|split; [|lia]].
    + intros Hn. rewrite <- Hocc1. apply P6. now rewrite Hstored1.
    + intros _ Hn. apply P7; [assumption|]. now rewrite Hstored1.
Qed.

(** An insertion that returns [MAP_OK] with no memory to rehash has
    found a slot: it does the same with every allocator and budget. *)
Lemma put_without_rehash m k v m' :
  hashmap_put no_memory 0 m k v = Some (MAP_OK, m') ->
  forall calloc_ok fuel, hashmap_put calloc_ok fuel m k v = Some (MAP_OK, m').
Proof.
  intros H calloc_ok fuel. rewrite hashmap_put_eq in H |- *.
  destruct (hashmap_hash m k); [exact H|]. discriminate H.
Qed.

Lemma put_all_without_rehash kvs : forall m,
  puts_ok no_memory 0 m kvs = true ->
  forall calloc_ok fuel,
    put_all calloc_ok fuel m kvs = put_all no_memory 0 m kvs /\
    puts_ok calloc_ok fuel m kvs = true.
Proof.
  induction kvs as [|[k v] kvs IH]; intros m H calloc_ok fuel;
    cbn [put_all puts_ok] in H |- *; [now split|].
  destruct (hashmap_put no_memory 0 m k v) as [[st m1]|] eqn:Hput;
    [|discriminate].
  apply Bool.andb_true_iff in H. destruct H as [Hst H].
  apply status_eqb_eq in Hst. subst st.
  rewrite (put_without_rehash _ _ _ _ Hput calloc_ok fuel).
  cbn [status_eqb andb]. now apply IH.
Qed.

Lemma add_all_without_rehash items : forall set,
  adds_ok no_memory 0 set items = true ->
  forall calloc_ok fuel,
    add_all calloc_ok fuel set items = add_all no_memory 0 set items /\
    adds_ok calloc_ok fuel set items = true.
Proof.
  induction items as [|x items IH]; intros set H calloc_ok fuel;
    cbn [add_all adds_ok] in H |- *; [now split|].
  unfold BRSetAdd.
  apply Bool.andb_true_iff in H. destruct H as [Hx H].
  rewrite Hx. apply Bool.negb_true_iff in Hx. rewrite Hx. cbn [andb].
  destruct (hashmap_put no_memory 0 (BRSetStruct.map set)
              (BRSetStruct.hash set x) x) as [[st m1]|] eqn:Hput;
    [|discriminate].
  apply Bool.andb_true_iff in H. destruct H as [Hst H].
  apply status_eqb_eq in Hst. subst st.
  rewrite (put_without_rehash _ _ _ _ Hput calloc_ok fuel).
  cbn [status_eqb andb]. now apply IH.
Qed.

(** ** Removal of an absent key *)

(** C7. When none of the 8 slots on the probe path of a key is in use
    with that key, [hashmap_remove] returns [MAP_MISSING] and the table,
    slots and count, is the one it was given. *)
Theorem remove_absent_unchanged m k :
  (forall i, (i < Z.to_nat MAX_CHAIN_LENGTH)%nat ->
             ~ matches (slot m (probe m k i)) k) ->
  hashmap_remove m k = (MAP_MISSING, m).
Proof. intros H. unfold hashmap_remove. now apply remove_loop_none. Qed.

(** Key 25 probes the slots 255, 0, ..., 6; slot 255 holds key 16. *)
Lemma remove_absent_unchanged_witness :
  hashmap_remove (store hashmap_new 255 16 1000) 25 =
  (MAP_MISSING, store hashmap_new 255 16 1000).
Proof.
  apply (remove_absent_unchanged (store hashmap_new 255 16 1000) 25).
  intros i Hi.
  do 8 (destruct i as [|i]; [vm_compute; intros [H1 H2]; congruence|]).
  vm_compute in Hi. lia.
Defined.

(** ** Clearing *)

Lemma hashmap_clear_eq m : hashmap_clear m = (MAP_OK, blank m 0).
Proof. reflexivity. Qed.

Lemma size_clear_times n : forall m, size (clear_times n m) = size m - Z.of_nat n.
Proof.
  induction n as [|n IH]; intros m; cbn [clear_times]; [lia|].
  rewrite IH, hashmap_clear_eq. cbn [snd blank size]. lia.
Qed.

(** C10. Every call of [hashmap_clear] returns [MAP_OK] and lowers the
    count by one, whatever the table holds; on the new table, which has
    no occupied slot, [n] calls leave the length at [- n], below zero
    from the first call on. *)
Theorem clear_always_decrements :
  (forall m, fst (hashmap_clear m) = MAP_OK /\
             hashmap_length (Some (snd (hashmap_clear m))) =
             hashmap_length (Some m) - 1) /\
  occupied hashmap_new = 0 /\
  (forall n, hashmap_length (Some (clear_times n hashmap_new)) = - Z.of_nat n) /\
  hashmap_length (Some (snd (hashmap_clear hashmap_new))) < 0.
Proof.
  split; [|split; [|split]].
  - intros m. rewrite hashmap_clear_eq. split; reflexivity.
  - unfold occupied, hashmap_new; cbn [slots]. now rewrite occupied_calloc.
  - intros n. cbn [hashmap_length]. rewrite size_clear_times. reflexivity.
  - reflexivity.
Qed.

(** C2, as stated, fails: key 19 is inserted into slot 3 of the new
    table, one of the first 8 slots, and after [hashmap_clear] the slot
    is as it was and the key is still found. *)
Lemma clear_keeps_slot_3 :
  (forall calloc_ok fuel,
     hashmap_put calloc_ok fuel hashmap_new 19 1000 =
     Some (MAP_OK, store hashmap_new 3 19 1000)) /\
  slot (snd (hashmap_clear (store hashmap_new 3 19 1000))) 3 = mk_element 19 1 1000 /\
  hashmap_get (snd (hashmap_clear (store hashmap_new 3 19 1000))) 19 = 1000.
Proof.
  split; [|vm_compute; repeat split].
  intros calloc_ok fuel. rewrite hashmap_put_eq.
  replace (hashmap_hash hashmap_new 19) with (At 3) by (vm_compute; reflexivity).
  reflexivity.
Qed.

(** C2, amended. [hashmap_clear] blanks slot 0 and no other slot, lowers
    the count by one and returns [MAP_OK] after this one iteration; every
    slot of index 1 or more, those of index 8 or more among them, is
    left as it was. *)
Theorem clear_resets_slot_0_only m :
  wf m ->
  hashmap_clear m = (MAP_OK, blank m 0) /\
  slot (snd (hashmap_clear m)) 0 = mk_element NULL 0 NULL /\
  size (snd (hashmap_clear m)) = size m - 1 /\
  table_size (snd (hashmap_clear m)) = table_size m /\
  forall i, 1 <= i -> slot (snd (hashmap_clear m)) i = slot m i.
Proof.
  intros [Hts Hlen]. rewrite hashmap_clear_eq. cbn [snd].
  split; [reflexivity|]. split; [|split; [reflexivity|split; [reflexivity|]]].
  - unfold slot, blank; cbn [slots]. apply Zget_Zset_same. lia.
  - intros i Hi. unfold slot, blank; cbn [slots].
    apply Zget_Zset_other; lia.
Qed.

Lemma clear_resets_slot_0_only_witness :
  hashmap_clear (store hashmap_new 3 19 1000) =
    (MAP_OK, blank (store hashmap_new 3 19 1000) 0) /\
  slot (snd (hashmap_clear (store hashmap_new 3 19 1000))) 0 =
    mk_element NULL 0 NULL /\
  size (snd (hashmap_clear (store hashmap_new 3 19 1000))) =
    size (store hashmap_new 3 19 1000) - 1 /\
  table_size (snd (hashmap_clear (store hashmap_new 3 19 1000))) =
    table_size (store hashmap_new 3 19 1000) /\
  forall i, 1 <= i ->
    slot (snd (hashmap_clear (store hashmap_new 3 19 1000))) i =
    slot (store hashmap_new 3 19 1000) i.
Proof.
  apply (clear_resets_slot_0_only (store hashmap_new 3 19 1000)).
  split; vm_compute; reflexivity.
Defined.

(** ** Count and capacity *)

Lemma quot_2_le z : 0 <= z -> 2 * Z.quot z 2 <= z.
Proof.
  intros Hz. rewrite Z.quot_div_nonneg by lia.
  pose proof (Z.mul_div_le z 2). lia.
Qed.

Section HalfLoop.
Variable put : hashmap_map -> Z -> Z -> option (status * hashmap_map).
Hypothesis put_half :
  forall m k v st m', 0 < table_size m -> 2 * size m <= table_size m ->
    put m k v = Some (st, m') ->
    table_size m <= table_size m' /\ 2 * size m' <= table_size m'.

Lemma rehash_loop_half es : forall acc st m',
  0 < table_size acc -> 2 * size acc <= table_size acc ->
  rehash_loop put es acc = Some (st, m') ->
  table_size acc <= table_size m' /\ 2 * size m' <= table_size m'.
Proof.
  induction es as [|e es IH]; intros acc st m' Hts Hsz Hrun;
    cbn [rehash_loop] in Hrun.
  - injection Hrun as <- <-. split; lia.
  - destruct (in_use e =? 0); [now apply (IH acc st)|].
    destruct (put acc (key e) (data e)) as [[st1 m1]|] eqn:Hput;
      [|discriminate].
    destruct (put_half _ _ _ _ _ Hts Hsz Hput) as (Hts1 & Hsz1).
    destruct (status_eqb st1 MAP_OK).
    + destruct (IH m1 st m') as (R2 & R3); [lia|assumption|assumption|].
      split; lia.
    + injection Hrun as <- <-. split; lia.
Qed.

End HalfLoop.

Lemma hashmap_put_half calloc_ok fuel : forall m k v st m',
  0 < table_size m -> 2 * size m <= table_size m ->
  hashmap_put calloc_ok fuel m k v = Some (st, m') ->
  table_size m <= table_size m' /\ 2 * size m' <= table_size m'.
Proof.
  induction fuel as [|fuel IH]; intros m k v st m' Hts Hsz Hrun;
    rewrite hashmap_put_eq in Hrun;
    destruct (hashmap_hash m k) as [idx|] eqn:Hh;
    try (injection Hrun as <- <-;
         apply hashmap_hash_At in Hh; destruct Hh as [Hlt _];
         pose proof (quot_2_le (table_size m));
         cbn [store size table_size]; split; lia).
  - destruct (calloc_ok (2 * table_size m)); [discriminate|].
    injection Hrun as <- <-. split; lia.
  - destruct (hashmap_rehash calloc_ok fuel m) as [[st1 m1]|] eqn:Hre;
      [|discriminate].
    unfold hashmap_rehash in Hre.
    destruct (calloc_ok (2 * table_size m)).
    + destruct (rehash_loop_half _ IH (slots m) (grown m) st1 m1)
        as (Hts1 & Hsz1);
        [unfold grown; cbn [table_size]; lia
        |unfold grown; cbn [table_size size]; lia
        |exact Hre|].
      unfold grown in Hts1; cbn [table_size] in Hts1.
      destruct (status_eqb st1 MAP_OMEM).
      * injection Hrun as <- <-. split; lia.
      * destruct (IH m1 k v st m') as (R2 & R3); [lia|lia|exact Hrun|].
        split; lia.
    + injection Hre as <- <-. cbn [status_eqb] in Hrun.
      injection Hrun as <- <-. split; lia.
Qed.

(** An insertion that finds the table full either leaves it as it is,
    when [calloc] fails, or returns a table of at least twice the
    capacity. *)
Lemma hashmap_put_full calloc_ok fuel m k v st m' :
  0 < table_size m -> hashmap_hash m k = Full ->
  hashmap_put calloc_ok fuel m k v = Some (st, m') ->
  (calloc_ok (2 * table_size m) = false /\ st = MAP_OMEM /\ m' = m) \/
  (calloc_ok (2 * table_size m) = true /\ 2 * table_size m <= table_size m').
Proof.
  intros Hts Hh Hrun. rewrite hashmap_put_eq, Hh in Hrun.
  destruct fuel as [|fuel].
  - destruct (calloc_ok (2 * table_size m)); [discriminate|].
    injection Hrun as <- <-. now left.
  - destruct (hashmap_rehash calloc_ok fuel m) as [[st1 m1]|] eqn:Hre;
      [|discriminate].
    unfold hashmap_rehash in Hre.
    destruct (calloc_ok (2 * table_size m)).
    + right. split; [reflexivity|].
      destruct (rehash_loop_half _ (hashmap_put_half calloc_ok fuel)
                  (slots m) (grown m) st1 m1) as (Hts1 & Hsz1);
        [unfold grown; cbn [table_size]; lia
        |unfold grown; cbn [table_size size]; lia
        |exact Hre|].
      unfold grown in Hts1; cbn [table_size] in Hts1.
      destruct (status_eqb st1 MAP_OMEM).
      * injection Hrun as <- <-. lia.
      * assert (Hpos1 : 0 < table_size m1) by lia.
        destruct (hashmap_put_half _ _ _ _ _ _ _ Hpos1 Hsz1 Hrun)
          as (R2 & _). lia.
    + injection Hre as <- <-. cbn [status_eqb] in Hrun.
      injection Hrun as <- <-. now left.
Qed.

(** The insertion returns: an allocator that refuses every request of
    more than [B] cells stops the doubling, and a budget of as many
    rehashes as there are doublings of the capacity up to [B]
    suffices. *)
Lemma hashmap_put_returns calloc_ok B fuel :
  bounded_by calloc_ok B ->
  forall m k v,
    0 < table_size m -> 2 * size m <= table_size m ->
    B < table_size m * 2 ^ Z.of_nat fuel ->
    exists st m', hashmap_put calloc_ok fuel m k v = Some (st, m').
Proof.
  intros HB. induction fuel as [|fuel IH]; intros m k v Hts Hsz Hfuel;
    cbn [hashmap_put]; (destruct (hashmap_hash m k); [eauto|]);
    destruct (calloc_ok (2 * table_size m)) eqn:Hc; eauto.
  - apply HB in Hc. change (2 ^ Z.of_nat 0) with 1 in Hfuel. lia.
  - assert (Hpow : 2 ^ Z.of_nat (S fuel) = 2 * 2 ^ Z.of_nat fuel)
      by (rewrite Nat2Z.inj_succ, Z.pow_succ_r by lia; reflexivity).
    rewrite Hpow in Hfuel.
    assert (Hpos : 0 < 2 ^ Z.of_nat fuel) by (apply Z.pow_pos_nonneg; lia).
    assert (Hall : forall m0 k0 v0,
               2 * table_size m <= table_size m0 /\
               2 * size m0 <= table_size m0 ->
               exists st m1, hashmap_put calloc_ok fuel m0 k0 v0 = Some (st, m1) /\
                             table_size m0 <= table_size m1 /\
                             2 * size m1 <= table_size m1).
    { intros m0 k0 v0 [H0 H1].
      destruct (IH m0 k0 v0) as (st & m1 & Hp); [lia|lia|nia|].
      exists st, m1. split; [exact Hp|].
      assert (Hpos0 : 0 < table_size m0) by lia.
      apply (hashmap_put_half _ _ _ _ _ _ _ Hpos0 H1 Hp). }
    assert (Hloop : forall es acc,
               2 * table_size m <= table_size acc /\
               2 * size acc <= table_size acc ->
               exists st m1,
                 rehash_loop (hashmap_put calloc_ok fuel) es acc = Some (st, m1) /\
                 2 * table_size m <= table_size m1 /\
                 2 * size m1 <= table_size m1).
    { induction es as [|e es IHes]; intros acc Hacc; cbn [rehash_loop].
      - exists MAP_OK, acc. split; [reflexivity|exact Hacc].
      - destruct (in_use e =? 0); [now apply IHes|].
        destruct (Hall acc (key e) (data e) Hacc) as (st1 & m1 & -> & H1 & H2).
        destruct (status_eqb st1 MAP_OK).
        + apply IHes. split; lia.
        + exists st1, m1. split; [reflexivity|]. split; lia. }
    destruct (Hloop (slots m) (grown m)) as (st1 & m1 & -> & H1 & H2);
      [unfold grown; cbn [table_size size]; lia|].
    destruct (status_eqb st1 MAP_OMEM); [eauto|].
    destruct (Hall m1 k v (conj H1 H2)) as (st & m' & -> & _). eauto.
Qed.

(** The budget is a device of the embedding only: what an insertion
    returns with some budget it returns with every larger one. *)
Lemma rehash_loop_more_fuel
      (put put' : hashmap_map -> Z -> Z -> option (status * hashmap_map)) es :
  (forall m k v r, put m k v = Some r -> put' m k v = Some r) ->
  forall acc r, rehash_loop put es acc = Some r ->
                rehash_loop put' es acc = Some r.
Proof.
  intros Hput. induction es as [|e es IH]; intros acc r Hrun;
    cbn [rehash_loop] in Hrun |- *; [exact Hrun|].
  destruct (in_use e =? 0); [now apply IH|].
  destruct (put acc (key e) (data e)) as [[st1 m1]|] eqn:Hp; [|discriminate].
  rewrite (Hput _ _ _ _ Hp).
  destruct (status_eqb st1 MAP_OK); [now apply IH|exact Hrun].
Qed.

Lemma hashmap_put_one_more calloc_ok fuel : forall m k v r,
  hashmap_put calloc_ok fuel m k v = Some r ->
  hashmap_put calloc_ok (S fuel) m k v = Some r.
Proof.
  induction fuel as [|fuel IH]; intros m k v r Hrun.
  - cbn [hashmap_put] in Hrun |- *.
    destruct (hashmap_hash m k); [exact Hrun|].
    destruct (calloc_ok (2 * table_size m)); [discriminate|exact Hrun].
  - remember (S fuel) as f eqn:Ef. cbn [hashmap_put]. subst f.
    cbn [hashmap_put] in Hrun.
    destruct (hashmap_hash m k); [exact Hrun|].
    destruct (calloc_ok (2 * table_size m)); [|exact Hrun].
    destruct (rehash_loop (hashmap_put calloc_ok fuel) (slots m) (grown m))
      as [[st1 m1]|] eqn:Hre; [|discriminate].
    rewrite (rehash_loop_more_fuel _ _ _ IH _ _ Hre).
    destruct (status_eqb st1 MAP_OMEM); [exact Hrun|now apply IH].
Qed.

Lemma hashmap_put_more_fuel calloc_ok fuel fuel' m k v r :
  (fuel <= fuel')%nat ->
  hashmap_put calloc_ok fuel m k v = Some r ->
  hashmap_put calloc_ok fuel' m k v = Some r.
Proof.
  intros Hle Hrun. induction Hle as [|f Hle IH]; [exact Hrun|].
  now apply hashmap_put_one_more.
Qed.

Lemma reachable_half m :
  reachable m -> 0 < table_size m /\ 2 * size m <= table_size m.
Proof.
  induction 1 as [|calloc_ok fuel m k v st m' _ [IHts IHsz] Hput
                  |m k _ [IHts IHsz]|m _ [IHts IHsz]].
  - split; reflexivity || discriminate.
  - destruct (hashmap_put_half _ _ _ _ _ _ _ IHts IHsz Hput) as (Hts & Hsz).
    split; lia.
  - unfold hashmap_remove.
    generalize (hashmap_hash_int m k) as c.
    induction (Z.to_nat MAX_CHAIN_LENGTH) as [|n IHn]; intros c;
      cbn [remove_loop].
    + cbn [snd]. split; assumption.
    + destruct (_ && _); [|apply IHn].
      cbn [snd blank table_size size]. split; lia.
  - rewrite hashmap_clear_eq. cbn [snd blank table_size size]. split; lia.
Qed.

Lemma put_all_reachable calloc_ok fuel kvs : forall m m',
  reachable m -> put_all calloc_ok fuel m kvs = Some m' -> reachable m'.
Proof.
  induction kvs as [|[k v] kvs IH]; intros m m' Hr Hrun; cbn [put_all] in Hrun.
  - now injection Hrun as <-.
  - destruct (hashmap_put calloc_ok fuel m k v) as [[st m1]|] eqn:Hput;
      [|discriminate].
    apply (IH m1); [|exact Hrun]. exact (reach_put _ _ _ _ _ _ _ Hr Hput).
Qed.

(** C9. In every table state the operations reach from [hashmap_new],
    the states an insertion leaves when [calloc] fails among them, the
    count is at most the capacity and [hashmap_hash] gives a slot only
    while the count is below [table_size / 2].  An insertion returns
    [MAP_OK] or [MAP_OMEM], with a count of at most half the capacity;
    when it finds the count at [table_size / 2] or more and returns
    [MAP_OK], the table was rehashed into at least twice the capacity.
    With an allocator that refuses the requests of more than [B] cells,
    an insertion with budget for the doublings up to [B] returns. *)
Theorem load_factor_invariant m :
  reachable m ->
  size m <= table_size m /\
  (forall k idx, hashmap_hash m k = At idx -> size m < Z.quot (table_size m) 2) /\
  (forall calloc_ok fuel k v st m',
     hashmap_put calloc_ok fuel m k v = Some (st, m') ->
     (st = MAP_OK \/ st = MAP_OMEM) /\
     2 * size m' <= table_size m' /\
     (st = MAP_OK -> Z.quot (table_size m) 2 <= size m ->
      2 * table_size m <= table_size m')) /\
  (forall calloc_ok B fuel k v,
     bounded_by calloc_ok B -> B < table_size m * 2 ^ Z.of_nat fuel ->
     exists st m', hashmap_put calloc_ok fuel m k v = Some (st, m')).
Proof.
  intros Hr. destruct (reachable_half m Hr) as [Hts Hsz].
  split; [lia|]. split; [|split].
  - intros k idx Hh. now apply hashmap_hash_At in Hh.
  - intros calloc_ok fuel k v st m' Hput.
    split; [exact (hashmap_put_status _ _ _ _ _ _ _ Hput)|].
    split; [apply (hashmap_put_half _ _ _ _ _ _ _ Hts Hsz Hput)|].
    intros -> Hge.
    assert (Hfull : hashmap_hash m k = Full).
    { unfold hashmap_hash.
      destruct (Z.geb_spec (size m) (Z.quot (table_size m) 2)); [reflexivity|lia]. }
    destruct (hashmap_put_full _ _ _ _ _ _ _ Hts Hfull Hput)
      as [(_ & H & _)|[_ H]]; [discriminate|exact H].
  - intros calloc_ok B fuel k v HB Hfuel.
    now apply (hashmap_put_returns calloc_ok B fuel HB).
Qed.

(** The table of the keys 1, ..., 128: the count is at half the capacity
    of 256, and the insertion of key 129 rehashes into 512 slots. *)
Lemma load_factor_invariant_witness :
  exists m,
    put_all (heap_limit (2 ^ 20)) 0 hashmap_new (identity_entries 1 128) = Some m /\
    size m = 128 /\ table_size m = 256 /\
    (exists m', hashmap_put (heap_limit (2 ^ 20)) 1 m 129 129 = Some (MAP_OK, m') /\
                size m' = 129 /\ table_size m' = 512) /\
    size m <= table_size m /\
    (forall k idx, hashmap_hash m k = At idx -> size m < Z.quot (table_size m) 2) /\
    (forall calloc_ok fuel k v st m',
       hashmap_put calloc_ok fuel m k v = Some (st, m') ->
       (st = MAP_OK \/ st = MAP_OMEM) /\
       2 * size m' <= table_size m' /\
       (st = MAP_OK -> Z.quot (table_size m) 2 <= size m ->
        2 * table_size m <= table_size m')) /\
    (forall calloc_ok B fuel k v,
       bounded_by calloc_ok B -> B < table_size m * 2 ^ Z.of_nat fuel ->
       exists st m', hashmap_put calloc_ok fuel m k v = Some (st, m')).
Proof.
  eexists. split; [vm_compute; reflexivity|].
  split; [reflexivity|]. split; [reflexivity|].
  split; [eexists; split; [vm_compute; reflexivity|split; reflexivity]|].
  match goal with
  | |- size ?m <= _ /\ _ =>
      apply (load_factor_invariant m);
      apply (put_all_reachable (heap_limit (2 ^ 20)) 0
               (identity_entries 1 128) hashmap_new m reach_new)
  end.
  vm_compute. reflexivity.
Defined.

(** ** Two additions under one hash *)

Lemma slot_new s : slot hashmap_new s = zero_element.
Proof. unfold hashmap_new. apply slot_calloc. Qed.

Lemma hash_loop_here n m k c :
  in_use (slot m c) = 0 \/ matches (slot m c) k ->
  hash_loop (S n) m k c = At c.
Proof.
  intros H. cbn [hash_loop].
  destruct (Z.eqb_spec (in_use (slot m c)) 0) as [E|E]; [reflexivity|].
  destruct H as [H|H]; [contradiction|].
  apply matches_iff in H. now rewrite H.
Qed.

Lemma hashmap_hash_below m k :
  size m < Z.quot (table_size m) 2 ->
  hashmap_hash m k =
  hash_loop (Z.to_nat MAX_CHAIN_LENGTH) m k (hashmap_hash_int m k).
Proof.
  intros H. unfold hashmap_hash.
  destruct (Z.geb_spec (size m) (Z.quot (table_size m) 2)); [lia|reflexivity].
Qed.

Lemma table_size_new : table_size hashmap_new = 256.
Proof. reflexivity. Qed.

Lemma size_new : size hashmap_new = 0.
Proof. reflexivity. Qed.

Lemma table_size_store m idx k v : table_size (store m idx k v) = table_size m.
Proof. reflexivity. Qed.

Lemma size_store m idx k v : size (store m idx k v) = size m + 1.
Proof. reflexivity. Qed.

Lemma hashmap_hash_new k :
  hashmap_hash hashmap_new k = At (hashmap_hash_int hashmap_new k).
Proof.
  rewrite hashmap_hash_below
    by (rewrite table_size_new, size_new; reflexivity).
  change (Z.to_nat MAX_CHAIN_LENGTH) with 8%nat.
  apply hash_loop_here. left. now rewrite slot_new.
Qed.

Lemma hashmap_hash_again k v :
  hashmap_hash (store hashmap_new (hashmap_hash_int hashmap_new k) k v) k =
  At (hashmap_hash_int hashmap_new k).
Proof.
  assert (Hc : 0 <= hashmap_hash_int hashmap_new k
                < Z.of_nat (length (slots hashmap_new))).
  { pose proof compact_new as [[Hts Hlen] _]. rewrite Hlen.
    now apply hashmap_hash_int_range. }
  pose proof (hashmap_hash_int_ext
                (store hashmap_new (hashmap_hash_int hashmap_new k) k v)
                hashmap_new k (table_size_store _ _ _ _)) as E.
  revert Hc E. generalize (hashmap_hash_int hashmap_new k) at 1 2 3 4 5 6.
  intros c Hc E.
  rewrite hashmap_hash_below
    by (rewrite table_size_store, size_store, table_size_new, size_new;
        reflexivity).
  rewrite E. change (Z.to_nat MAX_CHAIN_LENGTH) with 8%nat.
  apply hash_loop_here. right.
  rewrite slot_store_same by assumption. split; reflexivity.
Qed.

(** Adding [a] and then [b] to the new set when both have hash [k]. *)
Lemma add_twice_same_hash calloc_ok fuel hash eq capacity a b :
  a <> NULL -> b <> NULL -> hash a = hash b ->
  let idx := hashmap_hash_int hashmap_new (hash a) in
  let m1 := store hashmap_new idx (hash a) a in
  let m2 := store m1 idx (hash a) b in
  BRSetAdd calloc_ok fuel (BRSetNew hash eq capacity) a =
    Some (BRSetStruct.mk m1 hash eq, NULL) /\
  BRSetAdd calloc_ok fuel (BRSetStruct.mk m1 hash eq) b =
    Some (BRSetStruct.mk m2 hash eq, a) /\
  BRSetCount (BRSetStruct.mk m1 hash eq) = 1 /\
  BRSetCount (BRSetStruct.mk m2 hash eq) = 2 /\
  BRSetGet (BRSetStruct.mk m2 hash eq) a = Some b /\
  BRSetGet (BRSetStruct.mk m2 hash eq) b = Some b.
Proof.
  intros Ha Hb Hab idx m1 m2.
  assert (Hwf1 : wf m1) by (apply wf_store; apply compact_new).
  assert (Hget1 : hashmap_get m1 (hash a) = a)
    by (apply get_store_same; [apply compact_new|apply hashmap_hash_new]).
  assert (Hget2 : hashmap_get m2 (hash a) = b)
    by (apply get_store_same; [assumption|apply hashmap_hash_again]).
  split; [|split; [|split; [|split; [|split]]]].
  - unfold BRSetAdd, BRSetNew; cbn [BRSetStruct.hash BRSetStruct.map].
    destruct (Z.eqb_spec a NULL); [contradiction|].
    rewrite hashmap_put_eq, hashmap_hash_new.
    rewrite (get_not_stored _ _ (not_stored_new _)). reflexivity.
  - unfold BRSetAdd; cbn [BRSetStruct.hash BRSetStruct.map].
    destruct (Z.eqb_spec b NULL); [contradiction|].
    rewrite <- Hab, hashmap_put_eq. fold idx.
    unfold m1 at 1, idx at 1. rewrite hashmap_hash_again. fold idx m1.
    rewrite Hget1. reflexivity.
  - reflexivity.
  - reflexivity.
  - unfold BRSetGet; cbn [BRSetStruct.hash BRSetStruct.map].
    destruct (Z.eqb_spec a NULL); [contradiction|]. now rewrite Hget2.
  - unfold BRSetGet; cbn [BRSetStruct.hash BRSetStruct.map].
    destruct (Z.eqb_spec b NULL); [contradiction|].
    now rewrite <- Hab, Hget2.
Qed.

(** C1.  For items [a] and [b] with one hash, added in this order to the
    new set: the second addition returns [a] as the item replaced and
    [BRSetGet] on [a] gives [b], as the claim has it, but [BRSetCount]
    is 2 where the claim has 1. *)
Theorem collision_counts_two calloc_ok fuel hash eq capacity a b :
  a <> NULL -> b <> NULL -> a <> b -> hash a = hash b ->
  exists set1 set2,
    BRSetAdd calloc_ok fuel (BRSetNew hash eq capacity) a = Some (set1, NULL) /\
    BRSetAdd calloc_ok fuel set1 b = Some (set2, a) /\
    BRSetCount set2 = 2 /\
    BRSetGet set2 a = Some b.
Proof.
  intros Ha Hb _ Hab.
  destruct (add_twice_same_hash calloc_ok fuel hash eq capacity a b Ha Hb Hab)
    as (H1 & H2 & _ & H4 & H5 & _).
  eexists. eexists. split; [exact H1|]. split; [exact H2|].
  split; [exact H4|exact H5].
Qed.

Lemma collision_counts_two_witness :
  exists set1 set2,
    BRSetAdd (heap_limit (2 ^ 20)) 0 (BRSetNew (fun x => x mod 100) (fun x y => if x =? y then 1 else 0) 0) 7
      = Some (set1, NULL) /\
    BRSetAdd (heap_limit (2 ^ 20)) 0 set1 107 = Some (set2, 7) /\
    BRSetCount set2 = 2 /\
    BRSetGet set2 7 = Some 107.
Proof.
  apply (collision_counts_two (heap_limit (2 ^ 20)) 0 (fun x => x mod 100)
           (fun x y => if x =? y then 1 else 0) 0 7 107);
    vm_compute; congruence.
Defined.

(** C4.  Adding [x] and then an item of the same hash ([x] again, for
    one) to the new set: [BRSetGet] gives the item added second, as the
    claim has it, but [BRSetCount] goes from 1 to 2 between the two
    additions, where the claim has it unchanged. *)
Theorem second_add_raises_count calloc_ok fuel hash eq capacity x x' :
  x <> NULL -> x' <> NULL -> hash x = hash x' ->
  exists set1 set2,
    BRSetAdd calloc_ok fuel (BRSetNew hash eq capacity) x = Some (set1, NULL) /\
    BRSetAdd calloc_ok fuel set1 x' = Some (set2, x) /\
    BRSetCount set1 = 1 /\
    BRSetCount set2 = 2 /\
    BRSetGet set2 x' = Some x'.
Proof.
  intros Hx Hx' Hh.
  destruct (add_twice_same_hash calloc_ok fuel hash eq capacity x x' Hx Hx' Hh)
    as (H1 & H2 & H3 & H4 & _ & H6).
  eexists. eexists. split; [exact H1|]. split; [exact H2|].
  split; [exact H3|]. split; [exact H4|exact H6].
Qed.

Lemma second_add_raises_count_witness :
  exists set1 set2,
    BRSetAdd (heap_limit (2 ^ 20)) 0 (BRSetNew (fun x => x) (fun x y => if x =? y then 1 else 0) 0) 5
      = Some (set1, NULL) /\
    BRSetAdd (heap_limit (2 ^ 20)) 0 set1 5 = Some (set2, 5) /\
    BRSetCount set1 = 1 /\
    BRSetCount set2 = 2 /\
    BRSetGet set2 5 = Some 5.
Proof.
  apply (second_add_raises_count (heap_limit (2 ^ 20)) 0 (fun x => x)
           (fun x y => if x =? y then 1 else 0) 0 5 5);
    vm_compute; congruence.
Defined.

(** ** Applying a function to the items *)

(** C8.  With the identity as hash, the items 1, 2 and 3 are added to
    the new set, whatever the allocator and the budget; they are found,
    in the slots 150, 221 and 170, and the count is 3.  [BRSetApply]
    reads the slots 0, 1 and 2, which are empty, and calls [apply] on no
    item, where the claim has it called on each of the three. *)
Theorem apply_visits_no_item :
  exists set,
    (forall calloc_ok fuel,
       add_all calloc_ok fuel
               (BRSetNew (fun x => x) (fun x y => if x =? y then 1 else 0) 3)
               [1; 2; 3] = Some set) /\
    BRSetCount set = 3 /\
    BRSetContains set 1 = Some true /\
    BRSetContains set 2 = Some true /\
    BRSetContains set 3 = Some true /\
    hashmap_get_index (BRSetStruct.map set) 150 = 1 /\
    hashmap_get_index (BRSetStruct.map set) 221 = 2 /\
    hashmap_get_index (BRSetStruct.map set) 170 = 3 /\
    BRSetApply set [] (fun visited item => item :: visited) = [].
Proof.
  eexists. split.
  - intros calloc_ok fuel.
    destruct (add_all_without_rehash [1; 2; 3]
                (BRSetNew (fun x => x) (fun x y => if x =? y then 1 else 0) 3)
                ltac:(vm_compute; reflexivity) calloc_ok fuel) as [-> _].
    vm_compute. reflexivity.
  - vm_compute. repeat split.
Qed.

(** ** Insertions of distinct keys *)

Lemma distinctb_NoDup l : distinctb l = true -> NoDup l.
Proof.
  induction l as [|x l IH]; cbn [distinctb]; intros H; [constructor|].
  apply Bool.andb_true_iff in H. destruct H as [Hx Hl].
  constructor; [|now apply IH].
  intros Hin. apply Bool.negb_true_iff in Hx.
  assert (existsb (Z.eqb x) l = true); [|congruence].
  apply existsb_exists. exists x. split; [assumption|apply Z.eqb_refl].
Qed.

Lemma holds_entries_new : holds_entries hashmap_new [].
Proof.
  split; [apply compact_new|].
  assert (Ho : occupied hashmap_new = 0)
    by (unfold occupied, hashmap_new; cbn [slots]; now rewrite occupied_calloc).
  split; [now rewrite Ho|]. split; [exact Ho|]. split.
  - intros k. split; [intros H; now apply not_stored_new in H|intros []].
  - intros k v [].
Qed.

Lemma holds_entries_put calloc_ok fuel m done k v m' :
  holds_entries m done -> ~ In k (map fst done) ->
  hashmap_put calloc_ok fuel m k v = Some (MAP_OK, m') ->
  holds_entries m' ((k, v) :: done).
Proof.
  intros (Hc & Hsz & Hocc & Hst & Hget) Hnew Hput.
  assert (Hns : ~ stored m k) by now rewrite Hst.
  destruct (hashmap_put_ok _ _ _ _ _ _ Hc Hput eq_refl)
    as (P1 & P2 & P3 & P4 & P5 & P6 & P7 & _).
  cbn [fst snd] in P2, P3, P4, P5, P6, P7.
  split; [assumption|].
  split; [now apply P7|]. split; [|split].
  - rewrite (P6 Hns), Hocc. cbn [length]. lia.
  - intros k'. rewrite P5, Hst. cbn [map fst In]. intuition congruence.
  - intros k' v' [[= <- <-]|Hin]; [assumption|].
    rewrite P4; [now apply Hget|].
    intros ->. apply Hnew. change k with (fst (k, v')). now apply in_map.
Qed.

(** A run of insertions that all return [MAP_OK] returns. *)
Lemma puts_ok_put_all calloc_ok fuel kvs : forall m,
  puts_ok calloc_ok fuel m kvs = true ->
  exists m', put_all calloc_ok fuel m kvs = Some m'.
Proof.
  induction kvs as [|[k v] kvs IH]; intros m H; cbn [puts_ok put_all] in H |- *.
  - now exists m.
  - destruct (hashmap_put calloc_ok fuel m k v) as [[st m1]|]; [|discriminate].
    apply Bool.andb_true_iff in H. now apply IH.
Qed.

Lemma puts_ok_app calloc_ok fuel l1 : forall m l2,
  puts_ok calloc_ok fuel m (l1 ++ l2) = true ->
  exists m1, put_all calloc_ok fuel m l1 = Some m1 /\
             puts_ok calloc_ok fuel m l1 = true /\
             puts_ok calloc_ok fuel m1 l2 = true.
Proof.
  induction l1 as [|[k v] l1 IH]; intros m l2 H;
    cbn [app puts_ok put_all] in H |- *.
  - exists m. repeat split. exact H.
  - destruct (hashmap_put calloc_ok fuel m k v) as [[st m1]|]; [|discriminate].
    apply Bool.andb_true_iff in H. destruct H as [Hst H]. rewrite Hst.
    now apply IH.
Qed.

Lemma put_all_holds calloc_ok fuel kvs : forall m done m',
  holds_entries m done -> NoDup (map fst kvs) ->
  (forall k, In k (map fst kvs) -> ~ In k (map fst done)) ->
  puts_ok calloc_ok fuel m kvs = true ->
  put_all calloc_ok fuel m kvs = Some m' ->
  holds_entries m' (rev kvs ++ done).
Proof.
  induction kvs as [|[k v] kvs IH]; intros m done m' Hm Hnd Hfresh Hok Hrun;
    cbn [put_all puts_ok] in Hrun, Hok.
  - injection Hrun as <-. exact Hm.
  - destruct (hashmap_put calloc_ok fuel m k v) as [[st m1]|] eqn:Hput;
      [|discriminate].
    apply Bool.andb_true_iff in Hok. destruct Hok as [Hst Hok].
    apply status_eqb_eq in Hst. subst st.
    cbn [map fst] in Hnd. apply NoDup_cons_iff in Hnd.
    destruct Hnd as [Hk Hnd].
    pose proof (holds_entries_put _ _ _ _ _ _ _ Hm
                  (Hfresh k (or_introl eq_refl)) Hput) as Hm1.
    cbn [rev]. rewrite <- app_assoc. cbn [app].
    apply (IH m1); try assumption.
    intros k' Hin [<-|Hd]; [contradiction|].
    now apply (Hfresh k' (or_intror Hin)).
Qed.

(** The additions to a set are the insertions of its items under their
    hashes, whatever these return. *)
Lemma add_all_put_all calloc_ok fuel items : forall set set',
  add_all calloc_ok fuel set items = Some set' ->
  (forall x, In x items -> x <> NULL) /\
  BRSetStruct.hash set' = BRSetStruct.hash set /\
  put_all calloc_ok fuel (BRSetStruct.map set)
          (entries_of (BRSetStruct.hash set) items)
  = Some (BRSetStruct.map set').
Proof.
  induction items as [|x items IH]; intros set set' Hrun; cbn [add_all] in Hrun.
  - injection Hrun as <-. repeat split. intros x [].
  - destruct (BRSetAdd calloc_ok fuel set x) as [[set1 t]|] eqn:Hadd;
      [|discriminate].
    unfold BRSetAdd in Hadd.
    destruct (Z.eqb_spec x NULL) as [|Hx]; [discriminate|].
    destruct (hashmap_put calloc_ok fuel (BRSetStruct.map set)
                (BRSetStruct.hash set x) x)
      as [[st m1]|] eqn:Hput; [|discriminate].
    injection Hadd as <- _.
    destruct (IH _ _ Hrun) as (Hnn & Hh & Hp).
    cbn [with_map BRSetStruct.hash BRSetStruct.map] in Hh, Hp.
    split; [|split; [assumption|]].
    + intros y [<-|Hy]; [assumption|now apply Hnn].
    + cbn [entries_of map put_all]. now rewrite Hput.
Qed.

(** The other way round: a run of insertions that returns, for items
    that are not [NULL], is a run of additions. *)
Lemma put_all_add_all calloc_ok fuel items : forall set m',
  (forall x, In x items -> x <> NULL) ->
  put_all calloc_ok fuel (BRSetStruct.map set)
          (entries_of (BRSetStruct.hash set) items) = Some m' ->
  add_all calloc_ok fuel set items = Some (with_map set m').
Proof.
  induction items as [|x items IH]; intros set m' Hnn Hrun;
    cbn [entries_of map put_all add_all] in Hrun |- *.
  - injection Hrun as <-. now destruct set.
  - unfold BRSetAdd.
    destruct (Z.eqb_spec x NULL) as [E|_];
      [now apply (Hnn x (or_introl eq_refl)) in E|].
    destruct (hashmap_put calloc_ok fuel (BRSetStruct.map set)
                (BRSetStruct.hash set x) x) as [[st m1]|]; [|discriminate].
    rewrite (IH (with_map set m1) m');
      [reflexivity|intros y Hy; apply Hnn; now right|exact Hrun].
Qed.

Lemma adds_ok_puts_ok calloc_ok fuel items : forall set,
  adds_ok calloc_ok fuel set items = true ->
  (forall x, In x items -> x <> NULL) /\
  puts_ok calloc_ok fuel (BRSetStruct.map set)
          (entries_of (BRSetStruct.hash set) items) = true.
Proof.
  induction items as [|x items IH]; intros set H;
    cbn [adds_ok entries_of map puts_ok] in H |- *.
  - split; [intros x []|reflexivity].
  - apply Bool.andb_true_iff in H. destruct H as [Hx H].
    apply Bool.negb_true_iff in Hx.
    destruct (hashmap_put calloc_ok fuel (BRSetStruct.map set)
                (BRSetStruct.hash set x) x) as [[st m1]|]; [|discriminate].
    apply Bool.andb_true_iff in H. destruct H as [Hst H]. rewrite Hst.
    destruct (IH _ H) as [Hnn Hok].
    cbn [with_map BRSetStruct.hash BRSetStruct.map] in Hok.
    split; [|exact Hok].
    intros y [<-|Hy]; [|now apply Hnn].
    intros ->. discriminate Hx.
Qed.

(** What the set is after additions of items with pairwise distinct
    hashes that all were stored. *)
Lemma adds_ok_holds calloc_ok fuel hash eq capacity items :
  NoDup (map hash items) ->
  adds_ok calloc_ok fuel (BRSetNew hash eq capacity) items = true ->
  exists m',
    add_all calloc_ok fuel (BRSetNew hash eq capacity) items =
      Some (BRSetStruct.mk m' hash eq) /\
    (forall x, In x items -> x <> NULL) /\
    holds_entries m' (rev (entries_of hash items)).
Proof.
  intros Hnd Hok.
  destruct (adds_ok_puts_ok _ _ _ _ Hok) as [Hnn Hpok].
  cbn [BRSetNew BRSetStruct.hash BRSetStruct.map] in Hpok.
  destruct (puts_ok_put_all _ _ _ _ Hpok) as [m' Hp].
  exists m'. split; [|split; [exact Hnn|]].
  - apply (put_all_add_all calloc_ok fuel items (BRSetNew hash eq capacity) m' Hnn Hp).
  - assert (Hkeys : map fst (entries_of hash items) = map hash items).
    { unfold entries_of. rewrite map_map. reflexivity. }
    pose proof (put_all_holds calloc_ok fuel (entries_of hash items) hashmap_new []
                  m' holds_entries_new) as Hm.
    rewrite Hkeys, app_nil_r in Hm.
    exact (Hm Hnd (fun _ _ H => H) Hpok Hp).
Qed.

(** X19.  [N] additions of items with pairwise distinct hashes to the
    new set, each of which was stored (its insertion into the table
    returned [MAP_OK]): the additions return, [BRSetCount] is [N],
    [BRSetContains] is true for every item added and false for every
    item whose hash was not added.  ([N] is taken below [2 ^ 31], the
    range of the [int] count.) *)
Theorem distinct_adds_counted calloc_ok fuel hash eq capacity items :
  NoDup (map hash items) ->
  Z.of_nat (length items) < 2 ^ 31 ->
  adds_ok calloc_ok fuel (BRSetNew hash eq capacity) items = true ->
  exists set',
    add_all calloc_ok fuel (BRSetNew hash eq capacity) items = Some set' /\
    BRSetCount set' = Z.of_nat (length items) /\
    (forall x, In x items -> BRSetContains set' x = Some true) /\
    (forall y, y <> NULL -> ~ In (hash y) (map hash items) ->
               BRSetContains set' y = Some false).
Proof.
  intros Hnd Hlen Hok.
  destruct (adds_ok_holds _ _ _ _ _ _ Hnd Hok)
    as (m' & Hrun & Hnn & Hc & Hsz & Hocc & Hst & Hget).
  exists (BRSetStruct.mk m' hash eq). split; [exact Hrun|].
  assert (Hkeys : map fst (entries_of hash items) = map hash items).
  { unfold entries_of. rewrite map_map. reflexivity. }
  split; [|split].
  - unfold BRSetCount, to_size_t. cbn [BRSetStruct.map hashmap_length].
    rewrite Hsz, Hocc, length_rev. unfold entries_of. rewrite length_map.
    apply Z.mod_small. lia.
  - intros x Hx. unfold BRSetContains, BRSetGet.
    cbn [BRSetStruct.map BRSetStruct.hash].
    pose proof (Hnn x Hx) as Hx0.
    destruct (Z.eqb_spec x NULL) as [|_]; [contradiction|].
    rewrite (Hget (hash x) x).
    + destruct (Z.eqb_spec x NULL); [contradiction|reflexivity].
    + apply in_rev. rewrite rev_involutive. unfold entries_of.
      apply (in_map (fun item => (hash item, item))). exact Hx.
  - intros y Hy Hnew. unfold BRSetContains, BRSetGet.
    cbn [BRSetStruct.map BRSetStruct.hash].
    destruct (Z.eqb_spec y NULL) as [|_]; [contradiction|].
    rewrite get_not_stored; [reflexivity|].
    rewrite Hst, map_rev, <- in_rev, Hkeys. exact Hnew.
Qed.

(** The items 1, ..., 200 under the identity: the 129th addition
    rehashes into 512 slots. *)
Lemma distinct_adds_counted_witness :
  exists set',
    add_all (heap_limit (2 ^ 20)) 1
            (BRSetNew (fun x => x) (fun x y => if x =? y then 1 else 0) 200)
            (first_items 200) = Some set' /\
    BRSetCount set' = Z.of_nat (length (first_items 200)) /\
    (forall x, In x (first_items 200) -> BRSetContains set' x = Some true) /\
    (forall y, y <> NULL -> ~ In y (map (fun x => x) (first_items 200)) ->
               BRSetContains set' y = Some false).
Proof.
  apply (distinct_adds_counted (heap_limit (2 ^ 20)) 1 (fun x => x)
           (fun x y => if x =? y then 1 else 0) 200 (first_items 200)).
  - apply distinctb_NoDup. vm_compute. reflexivity.
  - vm_compute. reflexivity.
  - vm_compute. reflexivity.
Defined.

(** ** Growth *)

Lemma hashmap_put_grows calloc_ok fuel m k v m' :
  0 < table_size m -> Z.quot (table_size m) 2 <= size m ->
  hashmap_put calloc_ok fuel m k v = Some (MAP_OK, m') ->
  2 * table_size m <= table_size m'.
Proof.
  intros Hts Hge Hput.
  assert (Hfull : hashmap_hash m k = Full).
  { unfold hashmap_hash.
    destruct (Z.geb_spec (size m) (Z.quot (table_size m) 2)); [reflexivity|lia]. }
  destruct (hashmap_put_full _ _ _ _ _ _ _ Hts Hfull Hput)
    as [(_ & H & _)|[_ H]]; [discriminate|exact H].
Qed.

(** C5, as stated, fails in two ways.  After [INITIAL_SIZE / 2 - 1 = 127]
    insertions (keys 1, ..., 127) the next insertion (key 128) finds the
    count below half the capacity: it stores the key with no rehash,
    whatever the allocator and the budget, and the capacity stays 256.
    And 127 insertions of distinct keys need not leave every key
    retrievable: of the keys 1, ..., 118 and [1 * 2 ^ 32], ...,
    [9 * 2 ^ 32], inserted in this order with an allocator that grants up
    to 4096 cells, the last is not found, its insertion having returned
    [MAP_OMEM]. *)
Lemma growth_as_stated_fails :
  (exists m,
     (forall calloc_ok fuel,
        put_all calloc_ok fuel hashmap_new (identity_entries 1 127) = Some m) /\
     size m = Z.quot INITIAL_SIZE 2 - 1 /\
     table_size m = INITIAL_SIZE /\
     forall calloc_ok fuel, exists idx,
       hashmap_put calloc_ok fuel m 128 128 = Some (MAP_OK, store m idx 128 128) /\
       table_size (store m idx 128 128) = INITIAL_SIZE /\
       size (store m idx 128 128) = Z.quot INITIAL_SIZE 2) /\
  (exists m m',
     length (identity_entries 1 118 ++
             map (fun j => (j * 2 ^ 32, j)) [1; 2; 3; 4; 5; 6; 7; 8]) = 126%nat /\
     distinctb (map fst (identity_entries 1 118 ++
                         map (fun j => (j * 2 ^ 32, j)) [1; 2; 3; 4; 5; 6; 7; 8; 9]))
       = true /\
     put_all (heap_limit 4096) 4 hashmap_new
             (identity_entries 1 118 ++
              map (fun j => (j * 2 ^ 32, j)) [1; 2; 3; 4; 5; 6; 7; 8]) = Some m /\
     hashmap_put (heap_limit 4096) 4 m (9 * 2 ^ 32) 9 = Some (MAP_OMEM, m') /\
     hashmap_get m' (9 * 2 ^ 32) = NULL).
Proof.
  split.
  - eexists. split; [|split; [|split]].
    + intros calloc_ok fuel.
      destruct (put_all_without_rehash (identity_entries 1 127) hashmap_new
                  ltac:(vm_compute; reflexivity) calloc_ok fuel) as [-> _].
      vm_compute. reflexivity.
    + vm_compute; reflexivity.
    + vm_compute; reflexivity.
    + intros calloc_ok fuel. eexists. rewrite hashmap_put_eq.
      match goal with
      | |- context [hashmap_hash ?m ?k] =>
          let r := eval vm_compute in (hashmap_hash m k) in
          replace (hashmap_hash m k) with r by (vm_compute; reflexivity)
      end.
      split; [reflexivity|]. split; vm_compute; reflexivity.
  - do 2 eexists. split; [reflexivity|]. split; [vm_compute; reflexivity|].
    split; [vm_compute; reflexivity|].
    split; vm_compute; reflexivity.
Qed.

(** C5, amended.  Insertions of pairwise distinct keys into the new table
    that all return [MAP_OK] leave every key retrievable, as does one
    more insertion that returns [MAP_OK], the new key included.  The
    insertion rehashes only when it must: with the count below half the
    capacity and an empty slot among the 8 it probes (as after
    [capacity / 2 - 1] insertions that filled no probe path) the
    capacity stays, and with the count at half the capacity the table
    at least doubles before the key is stored. *)
Theorem growth_keeps_items calloc_ok fuel kvs k v :
  NoDup (map fst (kvs ++ [(k, v)])) ->
  puts_ok calloc_ok fuel hashmap_new (kvs ++ [(k, v)]) = true ->
  exists m m',
    put_all calloc_ok fuel hashmap_new kvs = Some m /\
    size m = Z.of_nat (length kvs) /\
    (forall k0 v0, In (k0, v0) kvs -> hashmap_get m k0 = v0) /\
    hashmap_put calloc_ok fuel m k v = Some (MAP_OK, m') /\
    (forall k0 v0, In (k0, v0) (kvs ++ [(k, v)]) -> hashmap_get m' k0 = v0) /\
    (size m < Z.quot (table_size m) 2 ->
     (exists i, (i < Z.to_nat MAX_CHAIN_LENGTH)%nat /\
                in_use (slot m (probe m k i)) = 0) ->
     table_size m' = table_size m) /\
    (Z.quot (table_size m) 2 <= size m ->
     2 * table_size m <= table_size m').
Proof.
  intros Hnd Hok.
  destruct (puts_ok_app _ _ _ _ _ Hok) as (m & Hall & Hok1 & Hok2).
  cbn [puts_ok] in Hok2.
  destruct (hashmap_put calloc_ok fuel m k v) as [[st m']|] eqn:Hput;
    [|discriminate].
  rewrite Bool.andb_true_r in Hok2. apply status_eqb_eq in Hok2. subst st.
  exists m, m'.
  rewrite map_app in Hnd. cbn [map fst] in Hnd.
  pose proof (NoDup_remove_1 _ _ _ Hnd) as Hnd1. rewrite app_nil_r in Hnd1.
  pose proof (NoDup_remove_2 _ _ _ Hnd) as Hnew. rewrite app_nil_r in Hnew.
  pose proof (put_all_holds calloc_ok fuel kvs hashmap_new [] m holds_entries_new
                Hnd1 (fun _ _ H => H) Hok1 Hall) as Hm.
  rewrite app_nil_r in Hm.
  assert (Hnew' : ~ In k (map fst (rev kvs)))
    by (now rewrite map_rev, <- in_rev).
  pose proof (holds_entries_put _ _ _ _ _ _ _ Hm Hnew' Hput) as Hr.
  destruct Hm as (Hc & Hsz & Hocc & _ & Hget).
  destruct Hr as (_ & _ & _ & _ & Hget').
  split; [exact Hall|].
  split; [rewrite Hsz, Hocc, length_rev; reflexivity|].
  split; [intros k0 v0 Hin; apply Hget; now rewrite <- in_rev|].
  split; [exact Hput|]. split; [|split].
  - intros k0 v0 Hin. apply Hget'. apply in_app_or in Hin.
    destruct Hin as [Hin|[[= <- <-]|[]]]; [right; now rewrite <- in_rev|now left].
  - intros Hlt (i & Hi & Hempty).
    rewrite hashmap_put_eq, (hashmap_hash_below _ _ Hlt) in Hput.
    destruct (hash_loop _ m k _) as [idx|] eqn:Hloop.
    + injection Hput as <-. reflexivity.
    + exfalso. destruct (hash_loop_Full _ _ _ _ Hloop i Hi) as [Hu _].
      now apply Hu.
  - intros Hge. destruct Hc as [[Hts _] _].
    exact (hashmap_put_grows _ _ _ _ _ _ Hts Hge Hput).
Qed.

(** The keys 1, ..., 128 and then key 129: the count is at half the
    capacity, and the insertion rehashes into 512 slots. *)
Lemma growth_keeps_items_witness :
  exists m m',
    put_all (heap_limit (2 ^ 20)) 1 hashmap_new (identity_entries 1 128) = Some m /\
    size m = Z.of_nat (length (identity_entries 1 128)) /\
    (forall k0 v0, In (k0, v0) (identity_entries 1 128) -> hashmap_get m k0 = v0) /\
    hashmap_put (heap_limit (2 ^ 20)) 1 m 129 129 = Some (MAP_OK, m') /\
    (forall k0 v0, In (k0, v0) (identity_entries 1 128 ++ [(129, 129)]) ->
                   hashmap_get m' k0 = v0) /\
    (size m < Z.quot (table_size m) 2 ->
     (exists i, (i < Z.to_nat MAX_CHAIN_LENGTH)%nat /\
                in_use (slot m (probe m 129 i)) = 0) ->
     table_size m' = table_size m) /\
    (Z.quot (table_size m) 2 <= size m ->
     2 * table_size m <= table_size m').
Proof.
  apply (growth_keeps_items (heap_limit (2 ^ 20)) 1 (identity_entries 1 128) 129 129).
  - apply distinctb_NoDup. vm_compute. reflexivity.
  - vm_compute. reflexivity.
Defined.

(** ** Steps of the loops *)

Lemma hashmap_hash_int_zero m k : to_uint k = 0 -> hashmap_hash_int m k = 0.
Proof. intros H. unfold hashmap_hash_int. rewrite H. reflexivity. Qed.

Lemma rehash_loop_zeros put n acc :
  rehash_loop put (repeat zero_element n) acc = Some (MAP_OK, acc).
Proof. induction n as [|n IH]; cbn [repeat rehash_loop]; auto. Qed.

Lemma rehash_loop_cons put e rest m m' :
  in_use e = 1 -> put m (key e) (data e) = Some (MAP_OK, m') ->
  rehash_loop put (e :: rest) m = rehash_loop put rest m'.
Proof. intros Hu Hput. cbn [rehash_loop]. now rewrite Hu, Hput. Qed.

Lemma hash_loop_skip n m k c :
  in_use (slot m c) = 1 -> key (slot m c) <> k ->
  0 <= c -> c + 1 < table_size m ->
  hash_loop (S n) m k c = hash_loop n m k (c + 1).
Proof.
  intros Hu Hk Hc Hlt. cbn [hash_loop]. rewrite Hu.
  destruct (Z.eqb_spec (key (slot m c)) k); [contradiction|].
  cbn [Z.eqb andb]. unfold next_slot. now rewrite Z.rem_small by lia.
Qed.

Lemma put_all_app calloc_ok fuel l1 : forall m l2,
  put_all calloc_ok fuel m (l1 ++ l2) =
  match put_all calloc_ok fuel m l1 with
  | Some m' => put_all calloc_ok fuel m' l2
  | None => None
  end.
Proof.
  induction l1 as [|[k v] l1 IH]; intros m l2; cbn [app put_all]; [reflexivity|].
  destruct (hashmap_put calloc_ok fuel m k v) as [[st m']|]; [apply IH|reflexivity].
Qed.

(** * Further properties of the two files *)

(** ** What every insertion keeps *)

Lemma In_upd_nth {A : Type} n (l : list A) x e :
  In e (upd_nth n l x) -> e = x \/ In e l.
Proof.
  revert n; induction l as [|h t IH]; intros [|n]; cbn [upd_nth In]; auto.
  - intros [<-|H]; auto.
  - intros [<-|H]; auto. destruct (IH _ H); auto.
Qed.

Lemma wf_grown m : wf m -> wf (grown m).
Proof. intros [Hts _]. now apply compact_grown. Qed.

Lemma wf_blank m i : wf m -> wf (blank m i).
Proof.
  intros [Hts Hlen]. split; cbn [blank table_size slots]; [assumption|].
  unfold Zset. now rewrite length_upd_nth.
Qed.

Section PutPreserves.
Variable P : hashmap_map -> Prop.
Hypothesis P_store :
  forall m idx k v, P m -> hashmap_hash m k = At idx -> P (store m idx k v).
Hypothesis P_grown : forall m, P m -> P (grown m).
Variable calloc_ok : Z -> bool.

Lemma rehash_loop_preserves put es : forall acc st m',
  (forall m k v st m', P m -> put m k v = Some (st, m') -> P m') ->
  P acc -> rehash_loop put es acc = Some (st, m') -> P m'.
Proof.
  induction es as [|e es IH]; intros acc st m' Hput Hacc Hrun;
    cbn [rehash_loop] in Hrun.
  - now injection Hrun as <- <-.
  - destruct (in_use e =? 0); [now apply (IH acc st)|].
    destruct (put acc (key e) (data e)) as [[st1 m1]|] eqn:E; [|discriminate].
    pose proof (Hput _ _ _ _ _ Hacc E) as Hm1.
    destruct (status_eqb st1 MAP_OK); [now apply (IH m1 st)|].
    now injection Hrun as <- <-.
Qed.

(** Whatever an insertion returns, the table it leaves has the
    property: the one it was given when [calloc] failed at once, the
    partly filled new one when a nested insertion failed. *)
Lemma hashmap_put_preserves fuel : forall m k v st m',
  P m -> hashmap_put calloc_ok fuel m k v = Some (st, m') -> P m'.
Proof.
  induction fuel as [|fuel IH]; intros m k v st m' Hm Hrun;
    cbn [hashmap_put] in Hrun;
    (destruct (hashmap_hash m k) as [idx|] eqn:Hh;
      [injection Hrun as <- <-; now apply P_store|]);
    (destruct (calloc_ok (2 * table_size m));
      [|now injection Hrun as <- <-]); [discriminate|].
  destruct (rehash_loop (hashmap_put calloc_ok fuel) (slots m) (grown m))
    as [[st1 m1]|] eqn:Hre; [|discriminate].
  pose proof (rehash_loop_preserves _ _ _ _ _ IH (P_grown m Hm) Hre) as Hm1.
  destruct (status_eqb st1 MAP_OMEM); [now injection Hrun as <- <-|].
  now apply (IH m1 k v st m').
Qed.

(** An insertion that returns [MAP_OK] has stored the key as its last
    step, in a table with the property. *)
Lemma hashmap_put_ends_in_store fuel : forall m k v m',
  P m -> hashmap_put calloc_ok fuel m k v = Some (MAP_OK, m') ->
  exists m0 idx, P m0 /\ hashmap_hash m0 k = At idx /\ m' = store m0 idx k v.
Proof.
  induction fuel as [|fuel IH]; intros m k v m' Hm Hrun;
    cbn [hashmap_put] in Hrun;
    (destruct (hashmap_hash m k) as [idx|] eqn:Hh;
      [injection Hrun as <-; exists m, idx; now repeat split|]);
    (destruct (calloc_ok (2 * table_size m)); [|discriminate]);
    [discriminate|].
  destruct (rehash_loop (hashmap_put calloc_ok fuel) (slots m) (grown m))
    as [[st1 m1]|] eqn:Hre; [|discriminate].
  pose proof (rehash_loop_preserves _ _ _ _ _ (hashmap_put_preserves fuel)
                (P_grown m Hm) Hre) as Hm1.
  destruct (status_eqb st1 MAP_OMEM); [discriminate|].
  now apply (IH m1).
Qed.
End PutPreserves.

(** X5.  On every table whose array has [table_size] cells, holes left by
    removals included, an insertion returns [MAP_OK] or [MAP_OMEM] and
    leaves a table whose array has [table_size] cells.  When it returns
    [MAP_OK] the key is found with the value inserted, whether or not the
    insertion had to rehash.  When it finds no slot and the [calloc] of
    the rehash fails, it returns [MAP_OMEM] and the table is as it
    was. *)
Theorem put_then_get calloc_ok fuel m k v st m' :
  wf m -> hashmap_put calloc_ok fuel m k v = Some (st, m') ->
  wf m' /\
  (st = MAP_OK \/ st = MAP_OMEM) /\
  (st = MAP_OK -> hashmap_get m' k = v) /\
  (hashmap_hash m k = Full -> calloc_ok (2 * table_size m) = false ->
   st = MAP_OMEM /\ m' = m).
Proof.
  intros Hm Hrun.
  split; [|split; [|split]].
  - exact (hashmap_put_preserves wf
             (fun m idx k v H _ => wf_store m idx k v H) wf_grown
             _ _ _ _ _ _ _ Hm Hrun).
  - exact (hashmap_put_status _ _ _ _ _ _ _ Hrun).
  - intros ->.
    destruct (hashmap_put_ends_in_store wf
                (fun m idx k v H _ => wf_store m idx k v H) wf_grown
                _ _ _ _ _ _ Hm Hrun) as (m0 & idx & H0 & Hh & ->).
    now apply get_store_same.
  - intros Hh Hc. destruct Hm as [Hts _].
    destruct (hashmap_put_full _ _ _ _ _ _ _ Hts Hh Hrun)
      as [(_ & H1 & H2)|[H _]]; [now split|congruence].
Qed.

(** The keys 1, ..., 128 fill half of the 256 slots; key 129 is inserted
    through a rehash. *)
Lemma put_then_get_witness :
  exists m st m',
    put_all (heap_limit (2 ^ 20)) 0 hashmap_new (identity_entries 1 128) = Some m /\
    hashmap_put (heap_limit (2 ^ 20)) 1 m 129 4711 = Some (st, m') /\
    table_size m' = 512 /\
    wf m' /\
    (st = MAP_OK \/ st = MAP_OMEM) /\
    (st = MAP_OK -> hashmap_get m' 129 = 4711) /\
    (hashmap_hash m 129 = Full ->
     heap_limit (2 ^ 20) (2 * table_size m) = false ->
     st = MAP_OMEM /\ m' = m).
Proof.
  do 3 eexists. split; [vm_compute; reflexivity|].
  match goal with
  | |- hashmap_put _ 1 ?m 129 4711 = _ /\ _ =>
      assert (Hwf : wf m) by (split; vm_compute; reflexivity)
  end.
  split; [vm_compute; reflexivity|]. split; [reflexivity|].
  eapply (put_then_get (heap_limit (2 ^ 20)) 1 _ 129 4711); [exact Hwf|].
  vm_compute. reflexivity.
Defined.

(** ** The shape of reachable tables *)

Lemma kept_new : kept hashmap_new.
Proof.
  split; [apply compact_new|]. split; [exists O; reflexivity|].
  intros e He. right. now apply In_calloc in He.
Qed.

Lemma kept_store m idx k v : kept m -> kept (store m idx k v).
Proof.
  intros (Hwf & Hpow & Hcells). split; [now apply wf_store|].
  split; [assumption|]. intros e He. cbn [store slots] in He.
  apply In_upd_nth in He. destruct He as [->|He]; [now left|now apply Hcells].
Qed.

Lemma kept_grown m : kept m -> kept (grown m).
Proof.
  intros (Hwf & [j Hpow] & Hcells). split; [now apply wf_grown|]. split.
  - exists (S j). cbn [grown table_size]. rewrite Hpow, Nat2Z.inj_succ.
    rewrite Z.pow_succ_r by lia. lia.
  - intros e He. right. now apply In_calloc in He.
Qed.

Lemma kept_blank m i : kept m -> kept (blank m i).
Proof.
  intros (Hwf & Hpow & Hcells). split; [now apply wf_blank|].
  split; [assumption|]. intros e He. cbn [blank slots] in He.
  apply In_upd_nth in He. destruct He as [->|He]; [now right|now apply Hcells].
Qed.

Lemma remove_loop_cases n : forall m k c,
  snd (remove_loop n m k c) = m \/ exists s, snd (remove_loop n m k c) = blank m s.
Proof.
  induction n as [|n IH]; intros m k c; cbn [remove_loop]; [now left|].
  destruct (_ && _); [right; now exists c|apply IH].
Qed.

Lemma reachable_kept m : reachable m -> kept m.
Proof.
  induction 1 as [|calloc_ok fuel m k v st m' _ IH Hput|m k _ IH|m _ IH].
  - apply kept_new.
  - exact (hashmap_put_preserves kept
             (fun m idx k v H _ => kept_store m idx k v H) kept_grown
             _ _ _ _ _ _ _ IH Hput).
  - unfold hashmap_remove.
    destruct (remove_loop_cases (Z.to_nat MAX_CHAIN_LENGTH) m k
                (hashmap_hash_int m k)) as [->|[s ->]];
      [assumption|now apply kept_blank].
  - rewrite hashmap_clear_eq. now apply kept_blank.
Qed.

(** X13.  Every table the operations reach from [hashmap_new] has an
    array of [table_size] cells, a capacity that is [INITIAL_SIZE] times
    a power of two, and cells that either are in use with flag 1 or are
    all zero; so a position that yields a non-null value through
    [hashmap_get_index] is an occupied slot. *)
Theorem reachable_shape m :
  reachable m ->
  Z.of_nat (length (slots m)) = table_size m /\
  (exists j : nat, table_size m = INITIAL_SIZE * 2 ^ Z.of_nat j) /\
  (forall s, in_use (slot m s) = 1 \/ slot m s = zero_element) /\
  (forall s, hashmap_get_index m s <> NULL -> in_use (slot m s) = 1).
Proof.
  intros Hr. destruct (reachable_kept m Hr) as ([_ Hlen] & Hpow & Hcells).
  assert (Hslot : forall s, in_use (slot m s) = 1 \/ slot m s = zero_element).
  { intros s. unfold slot.
    destruct (Zget_In_or_default zero_element (slots m) s) as [Hin|Hd];
      [now apply Hcells|now right]. }
  split; [assumption|]. split; [assumption|]. split; [assumption|].
  intros s Hs. destruct (Hslot s) as [H1|H0]; [assumption|].
  unfold hashmap_get_index in Hs. rewrite H0 in Hs. now contradiction Hs.
Qed.

Lemma reachable_shape_witness :
  Z.of_nat (length (slots (snd (hashmap_clear (store hashmap_new 3 19 1000))))) =
    table_size (snd (hashmap_clear (store hashmap_new 3 19 1000))) /\
  (exists j : nat,
     table_size (snd (hashmap_clear (store hashmap_new 3 19 1000))) =
     INITIAL_SIZE * 2 ^ Z.of_nat j) /\
  (forall s, in_use (slot (snd (hashmap_clear (store hashmap_new 3 19 1000))) s) = 1 \/
             slot (snd (hashmap_clear (store hashmap_new 3 19 1000))) s = zero_element) /\
  (forall s, hashmap_get_index (snd (hashmap_clear (store hashmap_new 3 19 1000))) s <> NULL ->
             in_use (slot (snd (hashmap_clear (store hashmap_new 3 19 1000))) s) = 1).
Proof.
  apply (reachable_shape (snd (hashmap_clear (store hashmap_new 3 19 1000)))).
  apply reach_clear.
  apply (reach_put (heap_limit (2 ^ 20)) 0 hashmap_new 19 1000 MAP_OK).
  - apply reach_new.
  - vm_compute. reflexivity.
Defined.

(** ** Indices and probing *)

(** X1.  On a table whose array has [table_size] cells, the index
    [hashmap_hash_int] computes, every slot the linear probing steps to,
    and every index [hashmap_hash] returns lie inside the array. *)
Theorem hash_index_in_bounds m k :
  wf m ->
  0 <= hashmap_hash_int m k < table_size m /\
  (forall j, 0 <= probe m k j < Z.of_nat (length (slots m))) /\
  (forall idx, hashmap_hash m k = At idx ->
               0 <= idx < Z.of_nat (length (slots m))).
Proof.
  intros Hwf. pose proof Hwf as [Hts Hlen].
  split; [now apply hashmap_hash_int_range|]. split.
  - intros j. rewrite Hlen. now apply probe_range.
  - intros idx. now apply hashmap_hash_At_range.
Qed.

Lemma hash_index_in_bounds_witness :
  0 <= hashmap_hash_int (store hashmap_new 3 19 1000) 16
    < table_size (store hashmap_new 3 19 1000) /\
  (forall j, 0 <= probe (store hashmap_new 3 19 1000) 16 j
               < Z.of_nat (length (slots (store hashmap_new 3 19 1000)))) /\
  (forall idx, hashmap_hash (store hashmap_new 3 19 1000) 16 = At idx ->
               0 <= idx < Z.of_nat (length (slots (store hashmap_new 3 19 1000)))).
Proof.
  apply (hash_index_in_bounds (store hashmap_new 3 19 1000) 16).
  split; vm_compute; reflexivity.
Defined.

Lemma to_uint_add_multiple k j : to_uint (k + j * 2 ^ 32) = to_uint k.
Proof. unfold to_uint. apply Z.mod_add. lia. Qed.

(** X2.  [hashmap_hash_int] reads its key through an [unsigned int]: keys
    that differ by a multiple of [2 ^ 32] get the same index and the same
    probe path in every table, whatever its capacity. *)
Theorem hash_ignores_high_bits m k j :
  hashmap_hash_int m (k + j * 2 ^ 32) = hashmap_hash_int m k /\
  forall i, probe m (k + j * 2 ^ 32) i = probe m k i.
Proof.
  assert (E : hashmap_hash_int m (k + j * 2 ^ 32) = hashmap_hash_int m k)
    by (unfold hashmap_hash_int; now rewrite to_uint_add_multiple).
  split; [exact E|]. intros i. unfold probe. now rewrite E.
Qed.

Lemma hash_loop_all_skipped n m k : forall c,
  (forall i, (i < n)%nat ->
     in_use (slot m (walk m c i)) <> 0 /\ ~ matches (slot m (walk m c i)) k) ->
  hash_loop n m k c = Full.
Proof.
  induction n as [|n IH]; intros c H; cbn [hash_loop]; [reflexivity|].
  destruct (H O ltac:(lia)) as [Hu Hn]. cbn [walk] in Hu, Hn.
  destruct (Z.eqb_spec (in_use (slot m c)) 0); [contradiction|].
  apply matches_false in Hn. rewrite Hn. apply IH.
  intros i Hi. apply (H (S i)). lia.
Qed.

(** X3.  [hashmap_hash] answers [MAP_FULL] exactly when the count has
    reached half the capacity or each of the 8 slots on the probe path is
    occupied and is not the key's; otherwise it answers the first slot
    on the path that is empty or holds the key. *)
Theorem hashmap_hash_cases m k :
  (hashmap_hash m k = Full <->
   size m >= Z.quot (table_size m) 2 \/
   forall i, (i < Z.to_nat MAX_CHAIN_LENGTH)%nat ->
     in_use (slot m (probe m k i)) <> 0 /\ ~ matches (slot m (probe m k i)) k) /\
  (forall idx, hashmap_hash m k = At idx ->
     size m < Z.quot (table_size m) 2 /\
     exists j, (j < Z.to_nat MAX_CHAIN_LENGTH)%nat /\ probe m k j = idx /\
       (forall i, (i < j)%nat ->
          in_use (slot m (probe m k i)) <> 0 /\
          ~ matches (slot m (probe m k i)) k) /\
       (in_use (slot m idx) = 0 \/ matches (slot m idx) k)).
Proof.
  split; [|intros idx; apply hashmap_hash_At].
  unfold hashmap_hash.
  destruct (Z.geb_spec (size m) (Z.quot (table_size m) 2)) as [Hge|Hlt].
  - split; [intros _; left; lia|reflexivity].
  - split.
    + intros H. right. now apply hash_loop_Full.
    + intros [Hge|Hall]; [lia|]. now apply hash_loop_all_skipped.
Qed.

Lemma get_loop_cases n m k : forall c,
  (exists j, (j < n)%nat /\ matches (slot m (walk m c j)) k /\
     (forall i, (i < j)%nat -> ~ matches (slot m (walk m c i)) k) /\
     get_loop n m k c = data (slot m (walk m c j))) \/
  ((forall i, (i < n)%nat -> ~ matches (slot m (walk m c i)) k) /\
   get_loop n m k c = NULL).
Proof.
  induction n as [|n IH]; intros c.
  - right. split; [intros i Hi; lia|reflexivity].
  - cbn [get_loop]. destruct (_ && _) eqn:E.
    + left. exists O. apply matches_iff in E.
      repeat split; [lia|apply E|apply E|intros i Hi; lia].
    + apply matches_false in E.
      destruct (IH (next_slot m c)) as [(j & Hj & Hm & Hb & Hg)|[Hb Hg]].
      * left. exists (S j). split; [lia|]. split; [exact Hm|].
        split; [|exact Hg].
        intros [|i] Hi; [exact E|]. apply Hb. lia.
      * right. split; [|exact Hg].
        intros [|i] Hi; [exact E|]. apply Hb. lia.
Qed.

(** X4.  [hashmap_get] returns the value of the first of the 8 slots on
    the probe path that is in use with the key, and [NULL] when none is;
    it never returns a value stored under another key or in a slot
    beyond the bound. *)
Theorem get_first_match m k :
  (exists j, (j < Z.to_nat MAX_CHAIN_LENGTH)%nat /\
     matches (slot m (probe m k j)) k /\
     (forall i, (i < j)%nat -> ~ matches (slot m (probe m k i)) k) /\
     hashmap_get m k = data (slot m (probe m k j))) \/
  ((forall i, (i < Z.to_nat MAX_CHAIN_LENGTH)%nat ->
      ~ matches (slot m (probe m k i)) k) /\
   hashmap_get m k = NULL).
Proof. unfold hashmap_get, probe. apply get_loop_cases. Qed.

(** ** Tables built by insertions *)

Lemma put_all_lookup calloc_ok fuel kvs : forall m0 m,
  compact m0 -> puts_ok calloc_ok fuel m0 kvs = true ->
  put_all calloc_ok fuel m0 kvs = Some m ->
  compact m /\ forall k, hashmap_get m k = assoc_last kvs k (hashmap_get m0 k).
Proof.
  induction kvs as [|[k0 v0] kvs IH]; intros m0 m Hc Hok Hrun;
    cbn [put_all puts_ok] in Hrun, Hok.
  - injection Hrun as <-. now split.
  - destruct (hashmap_put calloc_ok fuel m0 k0 v0) as [[st m1]|] eqn:Hput;
      [|discriminate].
    apply Bool.andb_true_iff in Hok. destruct Hok as [Hst Hok].
    apply status_eqb_eq in Hst. subst st.
    destruct (hashmap_put_ok _ _ _ _ _ _ Hc Hput eq_refl)
      as (_ & Hc1 & Hget & Hother & _).
    cbn [snd] in Hc1, Hget, Hother.
    destruct (IH _ _ Hc1 Hok Hrun) as [Hcm Hm]. split; [assumption|].
    intros k. rewrite Hm. cbn [assoc_last].
    destruct (Z.eqb_spec k0 k) as [->|Hne]; [now rewrite Hget|].
    rewrite Hother by congruence. reflexivity.
Qed.

(** X8.  A table filled by insertions that all returned [MAP_OK] is the
    association list of the pairs inserted: [hashmap_get] gives for
    every key the value of the last pair inserted under it, and [NULL]
    for a key never inserted, however many rehashes lay between. *)
Theorem put_all_last_write calloc_ok fuel kvs :
  puts_ok calloc_ok fuel hashmap_new kvs = true ->
  exists m,
    put_all calloc_ok fuel hashmap_new kvs = Some m /\
    forall k, hashmap_get m k = assoc_last kvs k NULL.
Proof.
  intros Hok. destruct (puts_ok_put_all _ _ _ _ Hok) as [m Hrun].
  exists m. split; [exact Hrun|]. intros k.
  destruct (put_all_lookup _ _ _ _ _ compact_new Hok Hrun) as [_ H].
  rewrite H, (get_not_stored _ _ (not_stored_new k)). reflexivity.
Qed.

(** The keys 1, ..., 129 (one rehash), then key 5 again. *)
Lemma put_all_last_write_witness :
  exists m,
    put_all (heap_limit (2 ^ 20)) 1 hashmap_new
            (identity_entries 1 129 ++ [(5, 777)]) = Some m /\
    table_size m = 512 /\
    forall k, hashmap_get m k =
              assoc_last (identity_entries 1 129 ++ [(5, 777)]) k NULL.
Proof.
  destruct (put_all_last_write (heap_limit (2 ^ 20)) 1
              (identity_entries 1 129 ++ [(5, 777)]))
    as (m & Hrun & Hget); [vm_compute; reflexivity|].
  exists m. split; [exact Hrun|]. split; [|exact Hget].
  vm_compute in Hrun. injection Hrun as <-. reflexivity.
Defined.

(** X7.  [hashmap_rehash] of a table filled by insertions that all
    returned [MAP_OK].  It returns [MAP_OK] or [MAP_OMEM].  When its
    [calloc] fails it returns [MAP_OMEM] and the table is as it was;
    otherwise the table it leaves has at least twice the capacity, also
    when a nested insertion failed and ended the loop.  When it returns
    [MAP_OK], every key is found with the value it had, and the count is
    the number of occupied slots, which is the number there was (so a
    count that overwrites had raised is set right). *)
Theorem rehash_keeps_lookups calloc_ok0 fuel0 kvs m calloc_ok fuel st m' :
  puts_ok calloc_ok0 fuel0 hashmap_new kvs = true ->
  put_all calloc_ok0 fuel0 hashmap_new kvs = Some m ->
  hashmap_rehash calloc_ok fuel m = Some (st, m') ->
  (st = MAP_OK \/ st = MAP_OMEM) /\
  (calloc_ok (2 * table_size m) = false -> st = MAP_OMEM /\ m' = m) /\
  (calloc_ok (2 * table_size m) = true -> 2 * table_size m <= table_size m') /\
  (st = MAP_OK ->
   (forall k, hashmap_get m' k = hashmap_get m k) /\
   size m' = occupied m' /\
   occupied m' = occupied m).
Proof.
  intros Hok Hbuilt Hre.
  destruct (put_all_lookup _ _ _ _ _ compact_new Hok Hbuilt) as [Hc _].
  split; [exact (hashmap_rehash_status _ _ _ _ _ Hre)|].
  split; [|split].
  - intros Hno. unfold hashmap_rehash in Hre. rewrite Hno in Hre.
    injection Hre as <- <-. now split.
  - intros Hyes. unfold hashmap_rehash in Hre. rewrite Hyes in Hre.
    destruct Hc as [[Hts _] _].
    destruct (rehash_loop_half _ (hashmap_put_half calloc_ok fuel)
                (slots m) (grown m) st m') as (Hts1 & _);
      [unfold grown; cbn [table_size]; lia
      |unfold grown; cbn [table_size size]; lia
      |exact Hre|].
    exact Hts1.
  - intros ->.
    destruct (hashmap_rehash_ok _ _ _ _ (hashmap_put_ok calloc_ok fuel) Hc Hre eq_refl)
      as (_ & _ & H3 & _ & H5 & H6 & _).
    cbn [fst snd] in H3, H5, H6. repeat split; assumption.
Qed.

(** Key 19 inserted three times: the count is 3 with one slot occupied;
    after the rehash it is 1. *)
Lemma rehash_keeps_lookups_witness :
  exists m st m',
    put_all no_memory 0 hashmap_new [(19, 1); (19, 2); (19, 3)] = Some m /\
    hashmap_rehash (heap_limit (2 ^ 20)) 0 m = Some (st, m') /\
    size m = 3 /\ size m' = 1 /\ st = MAP_OK /\
    (st = MAP_OK \/ st = MAP_OMEM) /\
    (heap_limit (2 ^ 20) (2 * table_size m) = false -> st = MAP_OMEM /\ m' = m) /\
    (heap_limit (2 ^ 20) (2 * table_size m) = true ->
     2 * table_size m <= table_size m') /\
    (st = MAP_OK ->
     (forall k, hashmap_get m' k = hashmap_get m k) /\
     size m' = occupied m' /\
     occupied m' = occupied m).
Proof.
  do 3 eexists. split; [vm_compute; reflexivity|].
  split; [vm_compute; reflexivity|].
  split; [reflexivity|]. split; [reflexivity|]. split; [reflexivity|].
  eapply (rehash_keeps_lookups no_memory 0 [(19, 1); (19, 2); (19, 3)] _
            (heap_limit (2 ^ 20)) 0);
    vm_compute; reflexivity.
Defined.

(** ** Removal *)

Lemma slot_blank_same m s :
  0 <= s < Z.of_nat (length (slots m)) -> slot (blank m s) s = zero_element.
Proof. intros H. unfold slot, blank; cbn [slots]. now apply Zget_Zset_same. Qed.

Lemma slot_blank_other m s c :
  0 <= s -> 0 <= c -> c <> s -> slot (blank m s) c = slot m c.
Proof.
  intros Hs Hc Hne. unfold slot, blank; cbn [slots].
  apply Zget_Zset_other; lia.
Qed.

Lemma slot_blank_cases m s :
  slot (blank m s) s = zero_element \/ slot (blank m s) s = slot m s.
Proof.
  unfold slot, blank, Zget, Zset; cbn [slots]. rewrite nth_upd_nth.
  destruct (_ && _); [now left|now right].
Qed.

Lemma remove_loop_cases_path n m k : forall c,
  (exists j, (j < n)%nat /\ matches (slot m (walk m c j)) k /\
     (forall i, (i < j)%nat -> ~ matches (slot m (walk m c i)) k) /\
     remove_loop n m k c = (MAP_OK, blank m (walk m c j))) \/
  ((forall i, (i < n)%nat -> ~ matches (slot m (walk m c i)) k) /\
   remove_loop n m k c = (MAP_MISSING, m)).
Proof.
  induction n as [|n IH]; intros c.
  - right. split; [intros i Hi; lia|reflexivity].
  - cbn [remove_loop]. destruct (_ && _) eqn:E.
    + left. exists O. apply matches_iff in E.
      repeat split; [lia|apply E|apply E|intros i Hi; lia].
    + apply matches_false in E.
      destruct (IH (next_slot m c)) as [(j & Hj & Hm & Hb & Hg)|[Hb Hg]].
      * left. exists (S j). split; [lia|]. split; [exact Hm|].
        split; [|exact Hg].
        intros [|i] Hi; [exact E|]. apply Hb. lia.
      * right. split; [|exact Hg].
        intros [|i] Hi; [exact E|]. apply Hb. lia.
Qed.

Lemma hash_index_in_bounds_aux m k j :
  wf m -> 0 <= probe m k j < Z.of_nat (length (slots m)).
Proof. intros [Hts Hlen]. rewrite Hlen. now apply probe_range. Qed.

(** X9.  [hashmap_remove] blanks the first of the 8 slots on the probe
    path that is in use with the key, lowers the count by one and returns
    [MAP_OK]; it touches no other slot, and with no such slot it returns
    [MAP_MISSING] and the table as it was. *)
Theorem remove_first_match m k :
  wf m ->
  (exists j, (j < Z.to_nat MAX_CHAIN_LENGTH)%nat /\
     matches (slot m (probe m k j)) k /\
     (forall i, (i < j)%nat -> ~ matches (slot m (probe m k i)) k) /\
     fst (hashmap_remove m k) = MAP_OK /\
     size (snd (hashmap_remove m k)) = size m - 1 /\
     table_size (snd (hashmap_remove m k)) = table_size m /\
     slot (snd (hashmap_remove m k)) (probe m k j) = zero_element /\
     forall s, 0 <= s -> s <> probe m k j ->
               slot (snd (hashmap_remove m k)) s = slot m s) \/
  ((forall i, (i < Z.to_nat MAX_CHAIN_LENGTH)%nat ->
      ~ matches (slot m (probe m k i)) k) /\
   hashmap_remove m k = (MAP_MISSING, m)).
Proof.
  intros Hwf. unfold hashmap_remove, probe.
  destruct (remove_loop_cases_path (Z.to_nat MAX_CHAIN_LENGTH) m k
              (hashmap_hash_int m k)) as [(j & Hj & Hm & Hb & Hr)|H];
    [left|now right].
  exists j. rewrite Hr. cbn [fst snd].
  split; [assumption|]. split; [assumption|]. split; [assumption|].
  split; [reflexivity|]. split; [reflexivity|]. split; [reflexivity|]. split.
  - apply slot_blank_same. fold (probe m k j).
    now apply hash_index_in_bounds_aux.
  - intros s Hs Hne. apply slot_blank_other; try assumption.
    fold (probe m k j). destruct Hwf as [Hts _]. now apply probe_range.
Qed.

(** Keys 16 and 25 share the base slot 255; 25 is the second on its
    path, in slot 0. *)
Lemma remove_first_match_witness :
  hashmap_remove (store (store hashmap_new 255 16 1001) 0 25 1002) 25 =
    (MAP_OK, blank (store (store hashmap_new 255 16 1001) 0 25 1002) 0) /\
  ((exists j, (j < Z.to_nat MAX_CHAIN_LENGTH)%nat /\
      matches (slot (store (store hashmap_new 255 16 1001) 0 25 1002)
                    (probe (store (store hashmap_new 255 16 1001) 0 25 1002) 25 j)) 25 /\
      (forall i, (i < j)%nat ->
         ~ matches (slot (store (store hashmap_new 255 16 1001) 0 25 1002)
                         (probe (store (store hashmap_new 255 16 1001) 0 25 1002) 25 i)) 25) /\
      fst (hashmap_remove (store (store hashmap_new 255 16 1001) 0 25 1002) 25) = MAP_OK /\
      size (snd (hashmap_remove (store (store hashmap_new 255 16 1001) 0 25 1002) 25)) =
        size (store (store hashmap_new 255 16 1001) 0 25 1002) - 1 /\
      table_size (snd (hashmap_remove (store (store hashmap_new 255 16 1001) 0 25 1002) 25)) =
        table_size (store (store hashmap_new 255 16 1001) 0 25 1002) /\
      slot (snd (hashmap_remove (store (store hashmap_new 255 16 1001) 0 25 1002) 25))
           (probe (store (store hashmap_new 255 16 1001) 0 25 1002) 25 j) = zero_element /\
      forall s, 0 <= s ->
        s <> probe (store (store hashmap_new 255 16 1001) 0 25 1002) 25 j ->
        slot (snd (hashmap_remove (store (store hashmap_new 255 16 1001) 0 25 1002) 25)) s =
        slot (store (store hashmap_new 255 16 1001) 0 25 1002) s) \/
   ((forall i, (i < Z.to_nat MAX_CHAIN_LENGTH)%nat ->
       ~ matches (slot (store (store hashmap_new 255 16 1001) 0 25 1002)
                       (probe (store (store hashmap_new 255 16 1001) 0 25 1002) 25 i)) 25) /\
    hashmap_remove (store (store hashmap_new 255 16 1001) 0 25 1002) 25 =
      (MAP_MISSING, store (store hashmap_new 255 16 1001) 0 25 1002))).
Proof.
  split; [vm_compute; reflexivity|].
  apply (remove_first_match (store (store hashmap_new 255 16 1001) 0 25 1002) 25).
  split; vm_compute; reflexivity.
Defined.

Lemma get_loop_blank n m s k : forall c,
  ~ matches (slot m s) k -> 0 < table_size m -> 0 <= s ->
  0 <= c < table_size m ->
  get_loop n (blank m s) k c = get_loop n m k c.
Proof.
  intros c Hn Hts Hs. revert c; induction n as [|n IH]; intros c Hc;
    cbn [get_loop]; [reflexivity|].
  change (next_slot (blank m s) c) with (next_slot m c).
  rewrite IH by now apply next_slot_range.
  destruct (Z.eq_dec c s) as [->|Hne].
  - apply matches_false in Hn. rewrite Hn.
    destruct (slot_blank_cases m s) as [E|E]; rewrite E;
      [reflexivity|now rewrite Hn].
  - rewrite slot_blank_other by lia. reflexivity.
Qed.

Lemma get_blank m s k :
  wf m -> 0 <= s -> ~ matches (slot m s) k ->
  hashmap_get (blank m s) k = hashmap_get m k.
Proof.
  intros [Hts _] Hs Hn. unfold hashmap_get.
  rewrite (hashmap_hash_int_ext (blank m s) m k eq_refl).
  apply get_loop_blank; try assumption.
  now apply hashmap_hash_int_range.
Qed.

Lemma remove_loop_keeps_other n m k k' : forall c,
  wf m -> k' <> k -> 0 <= c < table_size m ->
  hashmap_get (snd (remove_loop n m k c)) k' = hashmap_get m k'.
Proof.
  induction n as [|n IH]; intros c Hwf Hne Hc; cbn [remove_loop];
    [reflexivity|].
  destruct (_ && _) eqn:E.
  - cbn [snd]. apply get_blank; [assumption|lia|].
    apply matches_iff in E. intros [_ Hk']. destruct E as [_ Hk]. congruence.
  - apply IH; try assumption. apply next_slot_range; [apply Hwf|assumption].
Qed.

Lemma remove_keeps_other_keys_aux m k k' :
  wf m -> k' <> k ->
  hashmap_get (snd (hashmap_remove m k)) k' = hashmap_get m k'.
Proof.
  intros Hwf Hne. unfold hashmap_remove.
  apply remove_loop_keeps_other; try assumption.
  apply hashmap_hash_int_range, Hwf.
Qed.

(** X10.  Removing a key leaves the lookup of every other key as it was:
    [hashmap_get] does not stop at an empty slot, so the hole a removal
    leaves on a probe path hides no entry behind it. *)
Theorem remove_keeps_other_keys m k k' :
  wf m -> k' <> k ->
  hashmap_get (snd (hashmap_remove m k)) k' = hashmap_get m k'.
Proof.
  intros Hwf Hne. unfold hashmap_remove.
  apply remove_loop_keeps_other; [assumption|assumption|].
  apply hashmap_hash_int_range, Hwf.
Qed.

(** Keys 16 and 25 share the base slot 255; 25 sits behind 16. *)
Lemma remove_keeps_other_keys_witness :
  exists m,
    put_all no_memory 0 hashmap_new [(16, 1001); (25, 1002)] = Some m /\
    hashmap_get m 25 = 1002 /\
    hashmap_get (snd (hashmap_remove m 16)) 25 = hashmap_get m 25.
Proof.
  eexists. split; [vm_compute; reflexivity|]. split; [vm_compute; reflexivity|].
  apply remove_keeps_other_keys; [split; vm_compute; reflexivity|].
  vm_compute. congruence.
Defined.

(** X12.  [hashmap_clear] leaves the lookup of every key as it was,
    unless slot 0 is in use with that key: the entries of the other
    slots stay in the table. *)
Theorem clear_keeps_lookups m k :
  wf m -> ~ matches (slot m 0) k ->
  hashmap_get (snd (hashmap_clear m)) k = hashmap_get m k.
Proof.
  intros Hwf Hn. rewrite hashmap_clear_eq. cbn [snd].
  apply get_blank; [assumption|lia|assumption].
Qed.

Lemma clear_keeps_lookups_witness :
  exists m,
    put_all no_memory 0 hashmap_new (identity_entries 1 100) = Some m /\
    hashmap_get m 19 = 19 /\
    hashmap_get (snd (hashmap_clear m)) 19 = hashmap_get m 19.
Proof.
  eexists. split; [vm_compute; reflexivity|]. split; [vm_compute; reflexivity|].
  apply clear_keeps_lookups; [split; vm_compute; reflexivity|].
  vm_compute. intros [H1 H2]. congruence.
Defined.

(** ** A key behind a hole *)

Lemma put_at_base calloc_ok fuel m k v :
  size m < Z.quot (table_size m) 2 ->
  in_use (slot m (hashmap_hash_int m k)) = 0 \/
  matches (slot m (hashmap_hash_int m k)) k ->
  hashmap_put calloc_ok fuel m k v =
  Some (MAP_OK, store m (hashmap_hash_int m k) k v).
Proof.
  intros Hsz Hat. rewrite hashmap_put_eq, hashmap_hash_below by assumption.
  change (Z.to_nat MAX_CHAIN_LENGTH) with 8%nat.
  now rewrite hash_loop_here.
Qed.

Lemma put_behind_base calloc_ok fuel m k v :
  size m < Z.quot (table_size m) 2 ->
  in_use (slot m (hashmap_hash_int m k)) = 1 ->
  key (slot m (hashmap_hash_int m k)) <> k ->
  in_use (slot m (next_slot m (hashmap_hash_int m k))) = 0 ->
  hashmap_put calloc_ok fuel m k v =
  Some (MAP_OK, store m (next_slot m (hashmap_hash_int m k)) k v).
Proof.
  intros Hsz Hu Hk Hnext. rewrite hashmap_put_eq, hashmap_hash_below by assumption.
  change (Z.to_nat MAX_CHAIN_LENGTH) with 8%nat. cbn [hash_loop].
  rewrite Hu, Hnext. cbn [Z.eqb andb].
  destruct (Z.eqb_spec (key (slot m (hashmap_hash_int m k))) k);
    [contradiction|reflexivity].
Qed.

Lemma remove_at_base m k :
  matches (slot m (hashmap_hash_int m k)) k ->
  hashmap_remove m k = (MAP_OK, blank m (hashmap_hash_int m k)).
Proof.
  intros H. unfold hashmap_remove.
  change (Z.to_nat MAX_CHAIN_LENGTH) with 8%nat. cbn [remove_loop].
  apply matches_iff in H. now rewrite H.
Qed.

Lemma get_at_base m k :
  matches (slot m (hashmap_hash_int m k)) k ->
  hashmap_get m k = data (slot m (hashmap_hash_int m k)).
Proof.
  intros H. unfold hashmap_get.
  change (Z.to_nat MAX_CHAIN_LENGTH) with 8%nat. cbn [get_loop].
  apply matches_iff in H. now rewrite H.
Qed.

Lemma get_behind_base m k :
  ~ matches (slot m (hashmap_hash_int m k)) k ->
  matches (slot m (next_slot m (hashmap_hash_int m k))) k ->
  hashmap_get m k = data (slot m (next_slot m (hashmap_hash_int m k))).
Proof.
  intros Hn H. unfold hashmap_get.
  change (Z.to_nat MAX_CHAIN_LENGTH) with 8%nat. cbn [get_loop].
  apply matches_false in Hn. apply matches_iff in H. now rewrite Hn, H.
Qed.

Lemma length_slots_store m idx k v :
  length (slots (store m idx k v)) = length (slots m).
Proof. cbn [store slots]. unfold Zset. apply length_upd_nth. Qed.

Lemma length_slots_blank m s : length (slots (blank m s)) = length (slots m).
Proof. cbn [blank slots]. unfold Zset. apply length_upd_nth. Qed.

Lemma length_slots_new : Z.of_nat (length (slots hashmap_new)) = 256.
Proof. apply compact_new. Qed.

Ltac slots_length :=
  repeat first [rewrite length_slots_store | rewrite length_slots_blank];
  rewrite ?length_slots_new; lia.

Ltac read_slots :=
  repeat first
    [ rewrite slot_store_same by slots_length
    | rewrite slot_blank_same by slots_length
    | rewrite slot_store_other by lia
    | rewrite slot_blank_other by lia
    | rewrite slot_new ].

Lemma occupied_blank m s :
  0 <= s < Z.of_nat (length (slots m)) ->
  occupied (blank m s) =
  occupied m - (if in_use (slot m s) =? 0 then 0 else 1).
Proof.
  intros Hs. unfold occupied, blank, Zset; cbn [slots].
  rewrite (filter_upd_nth used _ _ _ zero_element) by lia.
  fold (Zget zero_element (slots m) s). fold (slot m s).
  unfold used at 2 3. cbn [in_use Z.eqb negb].
  destruct (in_use (slot m s) =? 0); cbn [negb]; lia.
Qed.

Lemma occupied_new : occupied hashmap_new = 0.
Proof. unfold occupied, hashmap_new; cbn [slots]. now rewrite occupied_calloc. Qed.

(** Distinct keys [k1] and [k2] that share their base slot [b] in the
    new table: [k1] is inserted, [k2] is inserted and lands one slot
    further, [k1] is removed, [k2] is inserted again and lands in the
    freed base slot, [k2] is removed. *)
Lemma hole_run calloc_ok fuel k1 k2 v1 v2 v3 :
  k1 <> k2 ->
  hashmap_hash_int hashmap_new k1 = hashmap_hash_int hashmap_new k2 ->
  exists b b',
    let m1 := store hashmap_new b k1 v1 in
    let m2 := store m1 b' k2 v2 in
    let m3 := blank m2 b in
    let m4 := store m3 b k2 v3 in
    let m5 := blank m4 b in
    (0 <= b < 256 /\ 0 <= b' < 256 /\ b' <> b) /\
    hashmap_put calloc_ok fuel hashmap_new k1 v1 = Some (MAP_OK, m1) /\
    hashmap_put calloc_ok fuel m1 k2 v2 = Some (MAP_OK, m2) /\
    hashmap_remove m2 k1 = (MAP_OK, m3) /\
    hashmap_get m3 k2 = v2 /\
    hashmap_put calloc_ok fuel m3 k2 v3 = Some (MAP_OK, m4) /\
    hashmap_get m4 k2 = v3 /\
    hashmap_remove m4 k2 = (MAP_OK, m5) /\
    hashmap_get m5 k2 = v2.
Proof.
  intros Hk Hbase.
  pose proof (hashmap_hash_int_range hashmap_new k1) as Hb.
  rewrite table_size_new in Hb. specialize (Hb ltac:(lia)).
  remember (hashmap_hash_int hashmap_new k1) as b eqn:Eb.
  remember (Z.rem (b + 1) 256) as b' eqn:Eb'.
  assert (Hb' : 0 <= b' < 256 /\ b' <> b).
  { subst b'. destruct (Z.eq_dec b 255) as [E|Hne].
    - rewrite E. vm_compute. repeat split; congruence.
    - rewrite Z.rem_small by lia. lia. }
  exists b, b'. intros m1 m2 m3 m4 m5.
  assert (base : forall m k, table_size m = 256 ->
                 hashmap_hash_int m k = hashmap_hash_int hashmap_new k)
    by (intros m k Hm; apply hashmap_hash_int_ext; now rewrite Hm).
  assert (next : forall m, table_size m = 256 -> next_slot m b = b')
    by (intros m Hm; unfold next_slot; rewrite Hm; now subst b').
  assert (below : forall m, table_size m = 256 -> size m < 128 ->
                  size m < Z.quot (table_size m) 2)
    by (intros m Hm Hs; rewrite Hm; exact Hs).
  assert (T1 : table_size m1 = 256) by reflexivity.
  assert (T2 : table_size m2 = 256) by reflexivity.
  assert (T3 : table_size m3 = 256) by reflexivity.
  assert (T4 : table_size m4 = 256) by reflexivity.
  assert (T5 : table_size m5 = 256) by reflexivity.
  assert (E1 : hashmap_hash_int m1 k2 = b) by (rewrite base; congruence).
  assert (E2 : hashmap_hash_int m2 k1 = b) by (rewrite base; congruence).
  assert (E3 : hashmap_hash_int m3 k2 = b) by (rewrite base; congruence).
  assert (E4 : hashmap_hash_int m4 k2 = b) by (rewrite base; congruence).
  assert (E5 : hashmap_hash_int m5 k2 = b) by (rewrite base; congruence).
  split; [lia|].
  split; [|split; [|split; [|split; [|split; [|split; [|split]]]]]].
  - unfold m1. rewrite Eb. apply put_at_base; [reflexivity|].
    left. now rewrite slot_new.
  - unfold m2. rewrite <- (next m1 T1), <- E1.
    apply put_behind_base; rewrite ?E1, ?(next m1 T1);
      [apply below; [exact T1|reflexivity]| | |];
      unfold m1; read_slots; [reflexivity|exact Hk|reflexivity].
  - unfold m3. rewrite <- E2. apply remove_at_base. rewrite E2.
    unfold m2, m1. read_slots. split; reflexivity.
  - rewrite get_behind_base; rewrite E3, ?(next m3 T3);
      unfold m3, m2, m1; read_slots.
    + reflexivity.
    + intros [H _]. discriminate H.
    + split; reflexivity.
  - unfold m4. rewrite <- E3. apply put_at_base;
      [apply below; [exact T3|reflexivity]|].
    left. rewrite E3. unfold m3, m2, m1. read_slots. reflexivity.
  - rewrite get_at_base; rewrite E4; unfold m4, m3, m2, m1; read_slots;
      [reflexivity|split; reflexivity].
  - unfold m5. rewrite <- E4. apply remove_at_base. rewrite E4.
    unfold m4, m3, m2, m1. read_slots. split; reflexivity.
  - rewrite get_behind_base; rewrite E5, ?(next m5 T5);
      unfold m5, m4, m3, m2, m1; read_slots.
    + reflexivity.
    + intros [H _]. discriminate H.
    + split; reflexivity.
Qed.

(** C3.  A key the table holds is not always written where it is.  For
    distinct keys [k1] and [k2] that share their base slot [b] in the
    new table: insert [k1], insert [k2] (it lands in the next slot [b']),
    remove [k1].  Now [k2] is present, in slot [b'], and the count and
    the number of occupied slots are 1.  Inserting [k2] again writes the
    freed slot [b]: slot [b'], which holds the key, keeps the old value,
    the table holds the key twice, and the count, 2, does not exceed the
    number of occupied slots, 2. *)
Theorem put_present_key_behind_hole calloc_ok fuel k1 k2 v1 v2 v3 :
  k1 <> k2 ->
  hashmap_hash_int hashmap_new k1 = hashmap_hash_int hashmap_new k2 ->
  exists m1 m2 m3 m4 b b',
    hashmap_put calloc_ok fuel hashmap_new k1 v1 = Some (MAP_OK, m1) /\
    hashmap_put calloc_ok fuel m1 k2 v2 = Some (MAP_OK, m2) /\
    hashmap_remove m2 k1 = (MAP_OK, m3) /\
    slot m3 b' = mk_element k2 1 v2 /\
    hashmap_get m3 k2 = v2 /\
    size m3 = 1 /\ occupied m3 = 1 /\
    hashmap_put calloc_ok fuel m3 k2 v3 = Some (MAP_OK, m4) /\
    b <> b' /\
    slot m4 b' = mk_element k2 1 v2 /\
    slot m4 b = mk_element k2 1 v3 /\
    size m4 = 2 /\ occupied m4 = 2.
Proof.
  intros Hk Hbase.
  destruct (hole_run calloc_ok fuel k1 k2 v1 v2 v3 Hk Hbase)
    as (b & b' & (Hb & Hb' & Hne) & H1 & H2 & H3 & H4 & H5 & _).
  exists (store hashmap_new b k1 v1),
         (store (store hashmap_new b k1 v1) b' k2 v2),
         (blank (store (store hashmap_new b k1 v1) b' k2 v2) b),
         (store (blank (store (store hashmap_new b k1 v1) b' k2 v2) b) b k2 v3),
         b, b'.
  assert (O1 : occupied (store hashmap_new b k1 v1) = 1).
  { rewrite occupied_store by slots_length. read_slots.
    rewrite occupied_new. reflexivity. }
  assert (O2 : occupied (store (store hashmap_new b k1 v1) b' k2 v2) = 2).
  { rewrite occupied_store by slots_length. read_slots. rewrite O1.
    reflexivity. }
  assert (O3 : occupied (blank (store (store hashmap_new b k1 v1) b' k2 v2) b) = 1).
  { rewrite occupied_blank by slots_length. read_slots. rewrite O2.
    reflexivity. }
  split; [exact H1|]. split; [exact H2|]. split; [exact H3|].
  split; [read_slots; reflexivity|]. split; [exact H4|].
  split; [reflexivity|]. split; [exact O3|]. split; [exact H5|].
  split; [lia|]. split; [read_slots; reflexivity|].
  split; [read_slots; reflexivity|]. split; [reflexivity|].
  rewrite occupied_store by slots_length. read_slots. rewrite O3. reflexivity.
Qed.

(** Keys 16 and 25 both start probing at slot 255 of the new table. *)
Lemma put_present_key_behind_hole_witness :
  exists m1 m2 m3 m4 b b',
    hashmap_put (heap_limit (2 ^ 20)) 0 hashmap_new 16 1001 = Some (MAP_OK, m1) /\
    hashmap_put (heap_limit (2 ^ 20)) 0 m1 25 1002 = Some (MAP_OK, m2) /\
    hashmap_remove m2 16 = (MAP_OK, m3) /\
    slot m3 b' = mk_element 25 1 1002 /\
    hashmap_get m3 25 = 1002 /\
    size m3 = 1 /\ occupied m3 = 1 /\
    hashmap_put (heap_limit (2 ^ 20)) 0 m3 25 1003 = Some (MAP_OK, m4) /\
    b <> b' /\
    slot m4 b' = mk_element 25 1 1002 /\
    slot m4 b = mk_element 25 1 1003 /\
    size m4 = 2 /\ occupied m4 = 2.
Proof.
  apply (put_present_key_behind_hole (heap_limit (2 ^ 20)) 0 16 25 1001 1002 1003).
  - vm_compute. congruence.
  - vm_compute. reflexivity.
Defined.

(** X11.  Removal does not always make a key absent.  For distinct keys
    [k1] and [k2] that share their base slot in the new table: insert
    [k1], insert [k2] (it lands one slot further), remove [k1], insert
    [k2] again (it lands in the freed base slot, a second copy).  Now
    removing [k2] returns [MAP_OK] and blanks the copy in the base slot
    only: [hashmap_get] still finds [k2], with the value of its first
    insertion. *)
Theorem removed_key_resurfaces calloc_ok fuel k1 k2 v1 v2 v3 :
  k1 <> k2 ->
  hashmap_hash_int hashmap_new k1 = hashmap_hash_int hashmap_new k2 ->
  exists m1 m2 m3 m4 m5,
    hashmap_put calloc_ok fuel hashmap_new k1 v1 = Some (MAP_OK, m1) /\
    hashmap_put calloc_ok fuel m1 k2 v2 = Some (MAP_OK, m2) /\
    hashmap_remove m2 k1 = (MAP_OK, m3) /\
    hashmap_put calloc_ok fuel m3 k2 v3 = Some (MAP_OK, m4) /\
    hashmap_get m4 k2 = v3 /\
    hashmap_remove m4 k2 = (MAP_OK, m5) /\
    hashmap_get m5 k2 = v2 /\
    size m5 = 1.
Proof.
  intros Hk Hbase.
  destruct (hole_run calloc_ok fuel k1 k2 v1 v2 v3 Hk Hbase)
    as (b & b' & _ & H1 & H2 & H3 & _ & H5 & H6 & H7 & H8).
  do 5 eexists.
  split; [exact H1|]. split; [exact H2|]. split; [exact H3|].
  split; [exact H5|]. split; [exact H6|]. split; [exact H7|].
  split; [exact H8|reflexivity].
Qed.

Lemma removed_key_resurfaces_witness :
  exists m1 m2 m3 m4 m5,
    hashmap_put (heap_limit (2 ^ 20)) 0 hashmap_new 16 1001 = Some (MAP_OK, m1) /\
    hashmap_put (heap_limit (2 ^ 20)) 0 m1 25 1002 = Some (MAP_OK, m2) /\
    hashmap_remove m2 16 = (MAP_OK, m3) /\
    hashmap_put (heap_limit (2 ^ 20)) 0 m3 25 1003 = Some (MAP_OK, m4) /\
    hashmap_get m4 25 = 1003 /\
    hashmap_remove m4 25 = (MAP_OK, m5) /\
    hashmap_get m5 25 = 1002 /\
    size m5 = 1.
Proof.
  apply (removed_key_resurfaces (heap_limit (2 ^ 20)) 0 16 25 1001 1002 1003).
  - vm_compute. congruence.
  - vm_compute. reflexivity.
Defined.

(** ** The set on a table filled by additions *)

Lemma remove_stored_compact m k :
  compact m -> stored m k ->
  exists s, hashmap_remove m k = (MAP_OK, blank m s) /\
            hashmap_get (blank m s) k = NULL.
Proof.
  intros Hc Hst. pose proof Hc as [Hwf Hplaced]. pose proof Hwf as [Hts Hlen].
  unfold hashmap_remove.
  destruct (remove_loop_cases_path (Z.to_nat MAX_CHAIN_LENGTH) m k
              (hashmap_hash_int m k)) as [(j & Hj & [Hu Hk] & _ & Hr)|[Hnone _]].
  - fold (probe m k j) in *.
    exists (probe m k j). split; [exact Hr|].
    pose proof (probe_range m k j Hts) as Hpj.
    apply get_not_stored. intros Hst'. apply stored_iff_slot in Hst'.
    destruct Hst' as (s & Hs & Hus & Hks).
    rewrite length_slots_blank, Hlen in Hs.
    destruct (Z.eq_dec s (probe m k j)) as [->|Hne].
    + rewrite slot_blank_same in Hus by lia. now apply Hus.
    + rewrite slot_blank_other in Hus, Hks by lia. apply Hne.
      apply (compact_unique m); try assumption; try lia; congruence.
  - exfalso. apply stored_iff_slot in Hst. destruct Hst as (s & Hs & Hus & Hks).
    rewrite Hlen in Hs.
    destruct (Hplaced s Hs Hus) as [H1 (j & Hj & Hp & _)].
    rewrite Hks in Hp. apply (Hnone j Hj). fold (probe m k j).
    rewrite Hp. now split.
Qed.

Lemma NoDup_map_injective {A B : Type} (f : A -> B) l a b :
  NoDup (map f l) -> In a l -> In b l -> f a = f b -> a = b.
Proof.
  induction l as [|x l IH]; cbn [map In]; intros Hnd Ha Hb Hf; [contradiction|].
  apply NoDup_cons_iff in Hnd. destruct Hnd as [Hx Hnd].
  destruct Ha as [->|Ha], Hb as [->|Hb]; auto.
  - exfalso. apply Hx. rewrite Hf. now apply in_map.
  - exfalso. apply Hx. rewrite <- Hf. now apply in_map.
Qed.

(** X17.  On a set filled by additions of items with pairwise distinct
    hashes, each of which was stored (its insertion into the table
    returned [MAP_OK]): [BRSetRemove] of an item added returns that item,
    after it [BRSetContains] is false for the item and still true for
    every other item added, and [BRSetCount] is one less; [BRSetRemove]
    of an item whose hash was not added returns [NULL] and the set as it
    was. *)
Theorem remove_after_distinct_adds calloc_ok fuel hash eq capacity items :
  NoDup (map hash items) ->
  Z.of_nat (length items) < 2 ^ 31 ->
  adds_ok calloc_ok fuel (BRSetNew hash eq capacity) items = true ->
  exists set',
    add_all calloc_ok fuel (BRSetNew hash eq capacity) items = Some set' /\
    (forall x, In x items ->
       exists set'',
         BRSetRemove set' x = Some (set'', x) /\
         BRSetCount set'' = Z.of_nat (length items) - 1 /\
         BRSetContains set'' x = Some false /\
         forall y, In y items -> y <> x -> BRSetContains set'' y = Some true) /\
    (forall y, y <> NULL -> ~ In (hash y) (map hash items) ->
       BRSetRemove set' y = Some (set', NULL)).
Proof.
  intros Hnd Hlen Hok.
  destruct (adds_ok_holds _ _ _ _ _ _ Hnd Hok)
    as (m' & Hrun & Hnn & Hc & Hsz & Hocc & Hst & Hget).
  exists (BRSetStruct.mk m' hash eq). split; [exact Hrun|].
  assert (Hkeys : map fst (rev (entries_of hash items)) = rev (map hash items)).
  { rewrite map_rev. unfold entries_of. now rewrite map_map. }
  assert (Hfound : forall x, In x items -> hashmap_get m' (hash x) = x).
  { intros x Hx. apply Hget. rewrite <- in_rev. unfold entries_of.
    apply (in_map (fun item => (hash item, item))). exact Hx. }
  split.
  - intros x Hx. pose proof (Hnn x Hx) as Hx0.
    assert (Hsx : stored m' (hash x)).
    { apply Hst. rewrite Hkeys, <- in_rev. now apply in_map. }
    destruct (remove_stored_compact _ _ Hc Hsx) as (s & Hrem & Hgone).
    exists (BRSetStruct.mk (blank m' s) hash eq).
    unfold BRSetRemove, BRSetContains, BRSetGet, BRSetCount.
    cbn [with_map BRSetStruct.map BRSetStruct.hash BRSetStruct.eq hashmap_length].
    destruct (Z.eqb_spec x NULL) as [|_]; [contradiction|].
    rewrite Hrem, (Hfound x Hx), Hgone. cbn [snd blank size].
    split; [reflexivity|]. split; [|split; [reflexivity|]].
    + rewrite Hsz, Hocc, length_rev. unfold entries_of, to_size_t.
      rewrite length_map. apply Z.mod_small.
      destruct items; [contradiction|]. cbn [length] in *. lia.
    + intros y Hy Hne. pose proof (Hnn y Hy) as Hy0.
      destruct (Z.eqb_spec y NULL) as [|_]; [contradiction|].
      assert (Hhash : hash y <> hash x).
      { intros E. apply Hne.
        now apply (NoDup_map_injective hash items y x). }
      pose proof (remove_keeps_other_keys_aux m'
                    (hash x) (hash y) (proj1 Hc) Hhash) as Hkeep.
      rewrite Hrem in Hkeep. cbn [snd] in Hkeep.
      rewrite Hkeep, (Hfound y Hy).
      destruct (Z.eqb_spec y NULL); [contradiction|reflexivity].
  - intros y Hy Hnew. unfold BRSetRemove.
    cbn [with_map BRSetStruct.map BRSetStruct.hash BRSetStruct.eq].
    destruct (Z.eqb_spec y NULL) as [|_]; [contradiction|].
    assert (Hns : ~ stored m' (hash y))
      by (rewrite Hst, Hkeys, <- in_rev; exact Hnew).
    rewrite (get_not_stored _ _ Hns). unfold hashmap_remove.
    rewrite remove_loop_none; [reflexivity|].
    intros i _ [Hu Hk]. apply Hns. apply stored_iff_slot.
    exists (probe m' (hash y) i).
    split; [now apply hash_index_in_bounds_aux, Hc|].
    unfold probe. split; [lia|assumption].
Qed.

(** The items 1, ..., 10 under the identity. *)
Lemma remove_after_distinct_adds_witness :
  exists set',
    add_all no_memory 0
            (BRSetNew (fun x => x) (fun x y => if x =? y then 1 else 0) 10)
            (first_items 10) = Some set' /\
    (forall x, In x (first_items 10) ->
       exists set'',
         BRSetRemove set' x = Some (set'', x) /\
         BRSetCount set'' = Z.of_nat (length (first_items 10)) - 1 /\
         BRSetContains set'' x = Some false /\
         forall y, In y (first_items 10) -> y <> x ->
                   BRSetContains set'' y = Some true) /\
    (forall y, y <> NULL -> ~ In y (map (fun x => x) (first_items 10)) ->
       BRSetRemove set' y = Some (set', NULL)).
Proof.
  apply (remove_after_distinct_adds no_memory 0 (fun x => x)
           (fun x y => if x =? y then 1 else 0) 10 (first_items 10)).
  - apply distinctb_NoDup. vm_compute. reflexivity.
  - vm_compute. reflexivity.
  - vm_compute. reflexivity.
Defined.

(** ** The new set *)

(** X15.  The set [BRSetNew] returns is empty whatever the capacity asked
    for: its table has [INITIAL_SIZE] slots, [BRSetCount] is 0, no item
    is contained, [BRSetRemove] returns [NULL] and the set as it is, and
    [BRSetApply] calls [apply] on nothing. *)
Theorem new_set_is_empty hash eq capacity :
  table_size (BRSetStruct.map (BRSetNew hash eq capacity)) = INITIAL_SIZE /\
  BRSetCount (BRSetNew hash eq capacity) = 0 /\
  (forall x, x <> NULL ->
     BRSetGet (BRSetNew hash eq capacity) x = Some NULL /\
     BRSetContains (BRSetNew hash eq capacity) x = Some false /\
     BRSetRemove (BRSetNew hash eq capacity) x =
       Some (BRSetNew hash eq capacity, NULL)) /\
  (forall (I : Type) (info : I) (apply : I -> Z -> I),
     BRSetApply (BRSetNew hash eq capacity) info apply = info).
Proof.
  split; [reflexivity|]. split; [reflexivity|]. split; [|reflexivity].
  intros x Hx.
  assert (Hget : hashmap_get hashmap_new (hash x) = NULL)
    by apply get_not_stored, not_stored_new.
  unfold BRSetContains, BRSetGet, BRSetRemove, BRSetNew.
  cbn [BRSetStruct.map BRSetStruct.hash].
  destruct (Z.eqb_spec x NULL) as [|_]; [contradiction|].
  rewrite Hget. split; [reflexivity|]. split; [reflexivity|].
  unfold hashmap_remove. rewrite remove_loop_none; [reflexivity|].
  intros i _ [Hu _]. rewrite slot_new in Hu. discriminate Hu.
Qed.

(** ** Addition and lookup *)

(** X16.  [BRSetAdd] on a set whose table has [table_size] cells returns
    what [hashmap_get] found under the hash of the item before, and the
    set with the table [hashmap_put] left, whatever status [hashmap_put]
    returned: the status is dropped.  When that status was [MAP_OK],
    [BRSetGet] of the item gives the item itself and [BRSetContains] is
    true; [BRSetGet] of any other item of the same hash gives the item
    added as well, since only hashes are compared. *)
Theorem add_then_get calloc_ok fuel set item set' t :
  wf (BRSetStruct.map set) ->
  BRSetAdd calloc_ok fuel set item = Some (set', t) ->
  item <> NULL /\
  t = hashmap_get (BRSetStruct.map set) (BRSetStruct.hash set item) /\
  exists st,
    hashmap_put calloc_ok fuel (BRSetStruct.map set)
                (BRSetStruct.hash set item) item =
      Some (st, BRSetStruct.map set') /\
    (st = MAP_OK \/ st = MAP_OMEM) /\
    (st = MAP_OK ->
     BRSetGet set' item = Some item /\
     BRSetContains set' item = Some true /\
     forall y, y <> NULL -> BRSetStruct.hash set y = BRSetStruct.hash set item ->
               BRSetGet set' y = Some item).
Proof.
  intros Hwf Hadd. unfold BRSetAdd in Hadd.
  destruct (Z.eqb_spec item NULL) as [|Hitem]; [discriminate|].
  destruct (hashmap_put calloc_ok fuel (BRSetStruct.map set)
              (BRSetStruct.hash set item) item)
    as [[st m']|] eqn:Hput; [|discriminate].
  injection Hadd as <- <-.
  split; [assumption|]. split; [reflexivity|].
  exists st. split; [reflexivity|].
  split; [exact (hashmap_put_status _ _ _ _ _ _ _ Hput)|].
  intros ->.
  destruct (hashmap_put_ends_in_store wf
              (fun m idx k v H _ => wf_store m idx k v H) wf_grown
              _ _ _ _ _ _ Hwf Hput) as (m0 & idx & H0 & Hh & ->).
  pose proof (get_store_same m0 (BRSetStruct.hash set item) item idx H0 Hh) as Hget.
  assert (Hsame : forall y, y <> NULL ->
            BRSetStruct.hash set y = BRSetStruct.hash set item ->
            BRSetGet (with_map set (store m0 idx (BRSetStruct.hash set item) item)) y
            = Some item).
  { intros y Hy Hhash. unfold BRSetGet.
    cbn [with_map BRSetStruct.map BRSetStruct.hash].
    destruct (Z.eqb_spec y NULL) as [|_]; [contradiction|].
    now rewrite Hhash, Hget. }
  split; [now apply Hsame|]. split; [|assumption].
  unfold BRSetContains. rewrite (Hsame item Hitem eq_refl).
  destruct (Z.eqb_spec item NULL); [contradiction|reflexivity].
Qed.

(** Items hashed by their last two digits; 107 replaces 7. *)
Lemma add_then_get_witness :
  exists set set' t,
    add_all no_memory 0
            (BRSetNew (fun x => x mod 100) (fun x y => if x =? y then 1 else 0) 0)
            [7; 8] = Some set /\
    BRSetAdd no_memory 0 set 107 = Some (set', t) /\
    107 <> NULL /\
    t = hashmap_get (BRSetStruct.map set) (BRSetStruct.hash set 107) /\
    exists st,
      hashmap_put no_memory 0 (BRSetStruct.map set)
                  (BRSetStruct.hash set 107) 107 =
        Some (st, BRSetStruct.map set') /\
      (st = MAP_OK \/ st = MAP_OMEM) /\
      (st = MAP_OK ->
       BRSetGet set' 107 = Some 107 /\
       BRSetContains set' 107 = Some true /\
       forall y, y <> NULL -> BRSetStruct.hash set y = BRSetStruct.hash set 107 ->
                 BRSetGet set' y = Some 107).
Proof.
  do 3 eexists. split; [vm_compute; reflexivity|].
  split; [vm_compute; reflexivity|].
  eapply (add_then_get no_memory 0 _ 107);
    [split; vm_compute; reflexivity|vm_compute; reflexivity].
Defined.

(** ** How far [BRSetApply] reads *)

Lemma apply_loop_reads {I : Type} m (apply : I -> Z -> I) n :
  forall l pre info,
    slots m = pre ++ l -> (n <= length l)%nat ->
    apply_loop n m (Z.of_nat (length pre)) info apply =
    fold_left (fun acc t => if t =? NULL then acc else apply acc t)
              (map data (firstn n l)) info.
Proof.
  induction n as [|n IH]; intros l pre info Hslots Hn; [reflexivity|].
  destruct l as [|e l]; [cbn [length] in Hn; lia|].
  cbn [apply_loop firstn map fold_left].
  assert (He : hashmap_get_index m (Z.of_nat (length pre)) = data e).
  { unfold hashmap_get_index, slot, Zget. rewrite Nat2Z.id, Hslots.
    now rewrite nth_middle. }
  rewrite He.
  replace (Z.of_nat (length pre) + 1) with (Z.of_nat (length (pre ++ [e])))
    by (rewrite length_app; cbn [length]; lia).
  apply IH; [now rewrite <- app_assoc|cbn [length] in Hn; lia].
Qed.

(** X18.  [BRSetApply] reads the slots 0, ..., count - 1, in this order,
    and calls [apply] on the values among them that are not [NULL]: an
    item stored in a slot of index count or more is not visited, and an
    item in a lower slot is. *)
Theorem apply_reads_first_slots {I : Type} set (info : I) apply :
  0 <= size (BRSetStruct.map set) <= Z.of_nat (length (slots (BRSetStruct.map set))) ->
  size (BRSetStruct.map set) < 2 ^ 64 ->
  BRSetApply set info apply =
  fold_left (fun acc t => if t =? NULL then acc else apply acc t)
            (map data (firstn (Z.to_nat (size (BRSetStruct.map set)))
                              (slots (BRSetStruct.map set))))
            info.
Proof.
  intros Hsz Hmax. unfold BRSetApply, to_size_t. cbn [hashmap_length].
  rewrite Z.mod_small by lia.
  apply (apply_loop_reads (BRSetStruct.map set) apply _ _ []);
    [reflexivity|lia].
Qed.

(** Under the identity, item 315 is stored in slot 0 and item 1 in slot
    150: with a count of 2 only 315 is visited. *)
Lemma apply_reads_first_slots_witness :
  exists set,
    add_all no_memory 0
            (BRSetNew (fun x => x) (fun x y => if x =? y then 1 else 0) 2)
            [315; 1] = Some set /\
    BRSetContains set 1 = Some true /\
    BRSetApply set [] (fun visited item => item :: visited) = [315] /\
    BRSetApply set [] (fun visited item => item :: visited) =
    fold_left (fun acc t => if t =? NULL then acc else t :: acc)
              (map data (firstn (Z.to_nat (size (BRSetStruct.map set)))
                                (slots (BRSetStruct.map set))))
              [].
Proof.
  eexists. split; [vm_compute; reflexivity|]. split; [vm_compute; reflexivity|].
  split; [vm_compute; reflexivity|].
  apply (apply_reads_first_slots _ [] (fun visited item => item :: visited));
    vm_compute; [split; congruence|reflexivity].
Defined.

(** ** Keys that no rehash separates *)

Lemma firstn_succ_nth {A : Type} (l : list A) j d :
  (j < length l)%nat -> firstn (S j) l = firstn j l ++ [nth j l d].
Proof.
  revert j; induction l as [|x l IH]; intros [|j] Hj; cbn [length] in Hj;
    try lia; [reflexivity|].
  cbn [firstn nth app]. f_equal. apply IH. lia.
Qed.

Lemma skipn_nth_cons {A : Type} (l : list A) j d :
  (j < length l)%nat -> skipn j l = nth j l d :: skipn (S j) l.
Proof.
  revert j; induction l as [|x l IH]; intros [|j] Hj; cbn [length] in Hj;
    try lia; [reflexivity|].
  cbn [skipn nth]. rewrite (IH j) by lia. reflexivity.
Qed.

Lemma upd_nth_middle {A : Type} (l1 l2 : list A) x y :
  upd_nth (length l1) (l1 ++ x :: l2) y = l1 ++ y :: l2.
Proof. induction l1 as [|h t IH]; cbn [length app upd_nth]; congruence. Qed.

Lemma walk_small m c i :
  0 <= c -> c + Z.of_nat i < table_size m -> walk m c i = c + Z.of_nat i.
Proof.
  revert c; induction i as [|i IH]; intros c Hc Hlt; cbn [walk]; [lia|].
  unfold next_slot. rewrite Z.rem_small by lia. rewrite IH by lia. lia.
Qed.

Lemma hash_loop_run m k : forall j n c,
  (forall i, (i < j)%nat ->
     in_use (slot m (c + Z.of_nat i)) = 1 /\ key (slot m (c + Z.of_nat i)) <> k) ->
  in_use (slot m (c + Z.of_nat j)) = 0 ->
  0 <= c -> c + Z.of_nat j < table_size m -> (j < n)%nat ->
  hash_loop n m k c = At (c + Z.of_nat j).
Proof.
  induction j as [|j IH]; intros n c Hbefore Hat Hc Hlt Hn;
    (destruct n as [|n]; [lia|]).
  - rewrite Z.add_0_r in *. apply hash_loop_here. now left.
  - destruct (Hbefore O ltac:(lia)) as [Hu Hk]. rewrite Z.add_0_r in Hu, Hk.
    rewrite hash_loop_skip by (try assumption; lia).
    replace (c + Z.of_nat (S j)) with (c + 1 + Z.of_nat j) in * by lia.
    apply IH; try assumption; try lia.
    intros i Hi. replace (c + 1 + Z.of_nat i) with (c + Z.of_nat (S i)) by lia.
    apply Hbefore. lia.
Qed.

Lemma heap_limit_bounded L : bounded_by (heap_limit L) L.
Proof. intros n H. unfold heap_limit in H. now apply Z.leb_le. Qed.

Section Colliding.
Variable c : list hashmap_element.
Hypothesis Hc : colliding c.
Variable calloc_ok : Z -> bool.

Lemma slot_filled_lt T j n i :
  (i < j)%nat -> (j <= 8)%nat ->
  slot (filled T c j n) (Z.of_nat i) = nth i c zero_element.
Proof.
  intros Hi Hj. destruct Hc as (Hlen & _). unfold slot, Zget, filled.
  cbn [slots]. rewrite Nat2Z.id.
  rewrite app_nth1 by (rewrite length_firstn; lia).
  rewrite nth_firstn. destruct (Nat.ltb_spec i j); [reflexivity|lia].
Qed.

Lemma slot_filled_at T j n :
  (j < 8)%nat -> slot (filled T c j n) (Z.of_nat j) = zero_element.
Proof.
  intros Hj. destruct Hc as (Hlen & _). unfold slot, Zget, filled.
  cbn [slots]. rewrite Nat2Z.id.
  rewrite app_nth2 by (rewrite length_firstn; lia).
  rewrite length_firstn.
  replace (j - Nat.min j (length c))%nat with O by lia.
  replace (8 - j)%nat with (S (7 - j)) by lia. reflexivity.
Qed.

Lemma colliding_nth j :
  (j < 8)%nat ->
  in_use (nth j c zero_element) = 1 /\
  to_uint (key (nth j c zero_element)) = 0.
Proof.
  intros Hj. destruct Hc as (Hlen & _ & Hall). apply Hall, nth_In. lia.
Qed.

Lemma colliding_distinct i j :
  (i < 8)%nat -> (j < 8)%nat -> i <> j ->
  key (nth i c zero_element) <> key (nth j c zero_element).
Proof.
  intros Hi Hj Hne E. destruct Hc as (Hlen & Hnd & _). apply Hne.
  apply (proj1 (NoDup_nth (map key c) 0) Hnd);
    rewrite ?length_map; try lia.
  change 0 with (key zero_element). now rewrite !map_nth.
Qed.

Lemma store_filled T j n :
  (j < 8)%nat ->
  store (filled T c j n) (Z.of_nat j)
        (key (nth j c zero_element)) (data (nth j c zero_element)) =
  filled T c (S j) n.
Proof.
  intros Hj. pose proof (colliding_nth j Hj) as [Hu _].
  destruct Hc as (Hlen & _). unfold store, filled. cbn [table_size size slots].
  f_equal; [lia|]. unfold Zset. rewrite Nat2Z.id.
  rewrite (firstn_succ_nth c j zero_element) by lia.
  replace (8 - j)%nat with (S (8 - S j)) by lia. cbn [repeat app].
  rewrite <- app_assoc. cbn [app].
  replace j with (length (firstn j c)) at 1 by (rewrite length_firstn; lia).
  rewrite upd_nth_middle. f_equal. f_equal.
  destruct (nth j c zero_element) as [k u d]. cbn [in_use] in Hu.
  cbn [key data]. now rewrite Hu.
Qed.

Lemma put_filled f T n j :
  18 <= T -> (j < 8)%nat ->
  hashmap_put calloc_ok f (filled T c j n)
              (key (nth j c zero_element)) (data (nth j c zero_element)) =
  Some (MAP_OK, filled T c (S j) n).
Proof.
  intros HT Hj.
  assert (Hq : 9 <= Z.quot T 2).
  { rewrite Z.quot_div_nonneg by lia. apply Z.div_le_lower_bound; lia. }
  rewrite hashmap_put_eq, hashmap_hash_below
    by (cbn [filled size table_size]; lia).
  rewrite hashmap_hash_int_zero by now apply colliding_nth.
  change (Z.to_nat MAX_CHAIN_LENGTH) with 8%nat.
  rewrite (hash_loop_run _ _ j); cbn [Z.add];
    [now rewrite store_filled| | |lia|cbn [filled table_size]; lia|assumption].
  - intros i Hi. rewrite slot_filled_lt by lia. split.
    + apply colliding_nth. lia.
    + apply colliding_distinct; lia.
  - now rewrite slot_filled_at.
Qed.

Lemma rehash_loop_filled f T n rest : forall r j,
  18 <= T -> (j + r = 8)%nat ->
  rehash_loop (hashmap_put calloc_ok f) (skipn j c ++ rest) (filled T c j n) =
  rehash_loop (hashmap_put calloc_ok f) rest (filled T c 8 n).
Proof.
  induction r as [|r IH]; intros j HT Hj.
  - replace j with 8%nat by lia. rewrite skipn_all2; [reflexivity|].
    destruct Hc as (Hlen & _). lia.
  - rewrite (skipn_nth_cons c j zero_element)
      by (destruct Hc as (Hlen & _); lia).
    cbn [app]. erewrite rehash_loop_cons;
      [|now apply colliding_nth; lia|apply put_filled; [assumption|lia]].
    apply IH; [assumption|lia].
Qed.

Lemma put_all_filled f T n : forall r j,
  18 <= T -> (j + r = 8)%nat ->
  put_all calloc_ok f (filled T c j n)
          (map (fun e => (key e, data e)) (skipn j c)) =
    Some (filled T c 8 n) /\
  puts_ok calloc_ok f (filled T c j n)
          (map (fun e => (key e, data e)) (skipn j c)) = true.
Proof.
  induction r as [|r IH]; intros j HT Hj.
  - replace j with 8%nat by lia. rewrite skipn_all2; [now split|].
    destruct Hc as (Hlen & _). lia.
  - rewrite (skipn_nth_cons c j zero_element)
      by (destruct Hc as (Hlen & _); lia).
    cbn [map put_all puts_ok]. rewrite put_filled by (assumption || lia).
    cbn [status_eqb andb]. apply IH; [assumption|lia].
Qed.

Lemma filled_full T n k :
  18 <= T -> to_uint k = 0 -> ~ In k (map key c) ->
  hashmap_hash (filled T c 8 n) k = Full.
Proof.
  intros HT Hk Hnew.
  assert (Hq : 9 <= Z.quot T 2).
  { rewrite Z.quot_div_nonneg by lia. apply Z.div_le_lower_bound; lia. }
  rewrite hashmap_hash_below by (cbn [filled size table_size]; lia).
  rewrite hashmap_hash_int_zero by assumption.
  apply hash_loop_all_skipped. intros i Hi.
  change (Z.to_nat MAX_CHAIN_LENGTH) with 8%nat in Hi.
  rewrite walk_small by (cbn [filled table_size]; lia).
  rewrite Z.add_0_l, slot_filled_lt by lia.
  pose proof (colliding_nth i Hi) as [Hu _]. split; [lia|].
  intros [_ Hkey]. apply Hnew. rewrite <- Hkey.
  apply in_map, nth_In. destruct Hc as (Hlen & _). lia.
Qed.

(** On the table of the eight keys, each of them is found and no other
    key that is truncated to 0 is. *)
Lemma get_filled_in T n e :
  8 <= T -> In e c -> hashmap_get (filled T c 8 n) (key e) = data e.
Proof.
  intros HT He. destruct (In_nth c e zero_element He) as (j & Hj & <-).
  assert (Hj8 : (j < 8)%nat) by (destruct Hc as (Hlen & _); lia).
  unfold hashmap_get.
  rewrite hashmap_hash_int_zero by now apply colliding_nth.
  change (Z.to_nat MAX_CHAIN_LENGTH) with 8%nat.
  rewrite (get_loop_found 8 _ _ 0 j Hj8).
  - rewrite walk_small by (cbn [filled table_size]; lia).
    rewrite Z.add_0_l, slot_filled_lt by lia. reflexivity.
  - intros i Hi. rewrite walk_small by (cbn [filled table_size]; lia).
    rewrite Z.add_0_l, slot_filled_lt by lia. intros [_ Hk].
    revert Hk. apply colliding_distinct; lia.
  - rewrite walk_small by (cbn [filled table_size]; lia).
    rewrite Z.add_0_l, slot_filled_lt by lia.
    split; [now apply colliding_nth|reflexivity].
Qed.

Lemma get_filled_out T n k :
  8 <= T -> to_uint k = 0 -> ~ In k (map key c) ->
  hashmap_get (filled T c 8 n) k = NULL.
Proof.
  intros HT Hk Hnew. unfold hashmap_get.
  rewrite hashmap_hash_int_zero by assumption.
  apply get_loop_none. intros i Hi.
  change (Z.to_nat MAX_CHAIN_LENGTH) with 8%nat in Hi.
  rewrite walk_small by (cbn [filled table_size]; lia).
  rewrite Z.add_0_l, slot_filled_lt by lia.
  intros [_ Hkey]. apply Hnew. rewrite <- Hkey.
  apply in_map, nth_In. destruct Hc as (Hlen & _). lia.
Qed.

Lemma grown_filled T j n :
  4 <= T -> grown (filled T c j n) = filled (2 * T) c 0 (Z.to_nat (2 * T) - 8).
Proof.
  intros HT. unfold grown, filled.
  cbn [table_size firstn app Nat.sub Z.of_nat].
  f_equal. unfold calloc_elements. rewrite <- repeat_app. f_equal. lia.
Qed.

Lemma slots_filled T n : slots (filled T c 8 n) = skipn 0 c ++ repeat zero_element n.
Proof.
  unfold filled. cbn [slots skipn Nat.sub repeat app].
  f_equal. apply firstn_all2. destruct Hc as (Hlen & _). lia.
Qed.

(** With the slots 0, ..., 7 taken by keys that are truncated to 0, the
    insertion of one more such key finds no slot however often the table
    is doubled, since every rehash puts the eight keys back into the
    slots 0, ..., 7: it ends when [calloc] fails, with [MAP_OMEM], and
    leaves the eight keys in the table of the last rehash. *)
Lemma put_filled_omem fuel : forall T n k v st m',
  18 <= T -> to_uint k = 0 -> ~ In k (map key c) ->
  hashmap_put calloc_ok fuel (filled T c 8 n) k v = Some (st, m') ->
  st = MAP_OMEM /\
  exists T' n', T <= T' /\ m' = filled T' c 8 n' /\ calloc_ok (2 * T') = false.
Proof.
  induction fuel as [|fuel IH]; intros T n k v st m' HT Hk Hnew Hrun;
    rewrite hashmap_put_eq, filled_full in Hrun by assumption.
  - change (table_size (filled T c 8 n)) with T in Hrun.
    destruct (calloc_ok (2 * T)) eqn:Hcal; [discriminate|].
    injection Hrun as <- <-. split; [reflexivity|].
    exists T, n. split; [lia|now split].
  - unfold hashmap_rehash in Hrun.
    change (table_size (filled T c 8 n)) with T in Hrun.
    destruct (calloc_ok (2 * T)) eqn:Hcal.
    + rewrite grown_filled, slots_filled in Hrun by lia.
      rewrite (rehash_loop_filled fuel _ _ _ 8 0), rehash_loop_zeros in Hrun by lia.
      cbn [status_eqb] in Hrun.
      assert (HT2 : 18 <= 2 * T) by lia.
      destruct (IH _ _ _ _ _ _ HT2 Hk Hnew Hrun)
        as (Hst & T' & n' & HT' & Hm' & Hno).
      split; [exact Hst|]. exists T', n'. split; [lia|now split].
    + cbn [status_eqb] in Hrun. injection Hrun as <- <-.
      split; [reflexivity|]. exists T, n. split; [lia|now split].
Qed.
End Colliding.

Lemma colliding_cells kvs k v :
  length kvs = 8%nat ->
  NoDup (map fst (kvs ++ [(k, v)])) ->
  (forall k', In k' (map fst (kvs ++ [(k, v)])) -> to_uint k' = 0) ->
  colliding (map cell_of kvs) /\
  map key (map cell_of kvs) = map fst kvs /\
  map (fun e => (key e, data e)) (map cell_of kvs) = kvs /\
  ~ In k (map fst kvs) /\ to_uint k = 0.
Proof.
  intros Hlen Hnd Hzero. rewrite map_app in Hnd, Hzero. cbn [map fst] in Hnd, Hzero.
  assert (Hkeys : map key (map cell_of kvs) = map fst kvs)
    by (rewrite map_map; reflexivity).
  split; [|split; [exact Hkeys|split; [|split]]].
  - split; [now rewrite length_map|]. split.
    + rewrite Hkeys. apply NoDup_remove_1 in Hnd. now rewrite app_nil_r in Hnd.
    + intros e He. apply in_map_iff in He. destruct He as ([k' v'] & <- & Hin).
      split; [reflexivity|]. cbn [cell_of key fst].
      apply Hzero, in_or_app. left.
      change k' with (fst (k', v')). now apply in_map.
  - rewrite map_map. rewrite <- (map_id kvs) at 2. apply map_ext.
    intros [k' v']. reflexivity.
  - apply NoDup_remove_2 in Hnd. now rewrite app_nil_r in Hnd.
  - apply Hzero, in_or_app. right. now left.
Qed.

(** Eight pairwise distinct keys that are multiples of [2 ^ 32] and a
    ninth one, inserted into the new table in this order. *)
Lemma colliding_run calloc_ok B fuel kvs k v :
  bounded_by calloc_ok B -> B < INITIAL_SIZE * 2 ^ Z.of_nat fuel ->
  length kvs = 8%nat ->
  NoDup (map fst (kvs ++ [(k, v)])) ->
  (forall k', In k' (map fst (kvs ++ [(k, v)])) -> to_uint k' = 0) ->
  exists m m',
    put_all calloc_ok fuel hashmap_new kvs = Some m /\
    puts_ok calloc_ok fuel hashmap_new kvs = true /\
    table_size m = INITIAL_SIZE /\
    hashmap_put calloc_ok fuel m k v = Some (MAP_OMEM, m') /\
    calloc_ok (2 * table_size m') = false /\
    INITIAL_SIZE <= table_size m' /\
    size m' = 8 /\
    hashmap_get m' k = NULL /\
    (forall k0 v0, In (k0, v0) kvs -> hashmap_get m' k0 = v0).
Proof.
  intros HB Hfuel Hlen Hnd Hzero.
  destruct (colliding_cells kvs k v Hlen Hnd Hzero)
    as (Hc & Hkeys & Hkvs & Hnew & Hk).
  rewrite <- Hkeys in Hnew.
  destruct (put_all_filled (map cell_of kvs) Hc calloc_ok fuel 256 248 8 0
              ltac:(lia) eq_refl) as [Hput Hok].
  cbn [skipn] in Hput, Hok. rewrite Hkvs in Hput, Hok.
  change (filled 256 (map cell_of kvs) 0 248) with hashmap_new in Hput, Hok.
  destruct (hashmap_put_returns calloc_ok B fuel HB
              (filled 256 (map cell_of kvs) 8 248) k v)
    as (st & m' & Hrun);
    [reflexivity|cbn [filled size table_size]; lia|exact Hfuel|].
  assert (H256 : 18 <= 256) by lia.
  destruct (put_filled_omem (map cell_of kvs) Hc calloc_ok fuel
              256 248 k v st m' H256 Hk Hnew Hrun)
    as (-> & T' & n' & HT' & -> & Hno).
  exists (filled 256 (map cell_of kvs) 8 248), (filled T' (map cell_of kvs) 8 n').
  split; [exact Hput|]. split; [exact Hok|]. split; [reflexivity|].
  split; [exact Hrun|]. split; [exact Hno|]. split; [exact HT'|].
  split; [reflexivity|].
  split; [apply get_filled_out; [assumption|lia|assumption|assumption]|].
  intros k0 v0 Hin.
  apply (get_filled_in (map cell_of kvs) Hc T' n' (cell_of (k0, v0)));
    [lia|now apply in_map].
Qed.

(** X14.  Keys that are multiples of [2 ^ 32] all start probing at slot
    0 of every table, so no rehash separates them.  Eight such keys,
    pairwise distinct, are inserted into the new table without a rehash
    and fill the slots 0, ..., 7.  The insertion of a ninth one then
    doubles the table as long as [calloc] grants the memory and never
    finds a slot: with an allocator that refuses the requests of more
    than [B] cells it returns [MAP_OMEM], with the eight keys still
    found, the ninth absent, and the table as large as the allocator
    allowed. *)
Theorem colliding_keys_never_stored calloc_ok B fuel kvs k v :
  bounded_by calloc_ok B -> B < INITIAL_SIZE * 2 ^ Z.of_nat fuel ->
  length kvs = 8%nat ->
  NoDup (map fst (kvs ++ [(k, v)])) ->
  (forall k', In k' (map fst (kvs ++ [(k, v)])) -> to_uint k' = 0) ->
  exists m m',
    put_all calloc_ok fuel hashmap_new kvs = Some m /\
    table_size m = INITIAL_SIZE /\
    hashmap_put calloc_ok fuel m k v = Some (MAP_OMEM, m') /\
    calloc_ok (2 * table_size m') = false /\
    hashmap_get m' k = NULL /\
    (forall k0 v0, In (k0, v0) kvs -> hashmap_get m' k0 = v0).
Proof.
  intros HB Hfuel Hlen Hnd Hzero.
  destruct (colliding_run calloc_ok B fuel kvs k v HB Hfuel Hlen Hnd Hzero)
    as (m & m' & H1 & _ & H3 & H4 & H5 & _ & _ & H8 & H9).
  exists m, m'. repeat (split; [assumption|]). assumption.
Qed.

(** An allocator that grants up to [2 ^ 29] cells: the ninth insertion
    doubles the table 21 times, from 256 to [2 ^ 29] slots, before the
    next request is refused. *)
Lemma colliding_keys_never_stored_witness :
  exists m m',
    put_all (heap_limit (2 ^ 29)) 22 hashmap_new
            (map (fun j => (j * 2 ^ 32, j)) [1; 2; 3; 4; 5; 6; 7; 8]) = Some m /\
    table_size m = INITIAL_SIZE /\
    hashmap_put (heap_limit (2 ^ 29)) 22 m (9 * 2 ^ 32) 9 = Some (MAP_OMEM, m') /\
    heap_limit (2 ^ 29) (2 * table_size m') = false /\
    hashmap_get m' (9 * 2 ^ 32) = NULL /\
    (forall k0 v0,
       In (k0, v0) (map (fun j => (j * 2 ^ 32, j)) [1; 2; 3; 4; 5; 6; 7; 8]) ->
       hashmap_get m' k0 = v0).
Proof.
  apply (colliding_keys_never_stored (heap_limit (2 ^ 29)) (2 ^ 29) 22
           (map (fun j => (j * 2 ^ 32, j)) [1; 2; 3; 4; 5; 6; 7; 8])
           (9 * 2 ^ 32) 9).
  - apply heap_limit_bounded.
  - reflexivity.
  - reflexivity.
  - apply distinctb_NoDup. vm_compute. reflexivity.
  - intros k' Hin. vm_compute in Hin.
    repeat (destruct Hin as [<-|Hin]; [reflexivity|]). contradiction.
Defined.

(** ** Additions that are lost *)

Lemma entries_of_app hash l1 l2 :
  entries_of hash (l1 ++ l2) = entries_of hash l1 ++ entries_of hash l2.
Proof. unfold entries_of. apply map_app. Qed.

(** C6.  Nine items whose hashes are pairwise distinct multiples of
    [2 ^ 32], added to the new set, with an allocator that refuses the
    requests of more than [B] cells: every addition returns, and
    afterwards [BRSetCount] is 8 and [BRSetContains] is false for the
    ninth item, where the claim has 9 and true.  The eight items added
    first are contained. *)
Theorem ninth_colliding_add_is_lost calloc_ok B fuel hash eq capacity items x :
  bounded_by calloc_ok B -> B < INITIAL_SIZE * 2 ^ Z.of_nat fuel ->
  length items = 8%nat ->
  NoDup (map hash (items ++ [x])) ->
  (forall y, In y (items ++ [x]) -> y <> NULL /\ to_uint (hash y) = 0) ->
  exists set',
    add_all calloc_ok fuel (BRSetNew hash eq capacity) (items ++ [x]) = Some set' /\
    BRSetCount set' = 8 /\
    BRSetContains set' x = Some false /\
    (forall y, In y items -> BRSetContains set' y = Some true).
Proof.
  intros HB Hfuel Hlen Hnd Hzero.
  assert (Hkeys : map fst (entries_of hash items ++ [(hash x, x)]) =
                  map hash (items ++ [x])).
  { rewrite !map_app. unfold entries_of. rewrite map_map. reflexivity. }
  destruct (colliding_run calloc_ok B fuel (entries_of hash items) (hash x) x
              HB Hfuel) as (m & m' & H1 & _ & _ & H4 & _ & _ & H7 & H8 & H9).
  - unfold entries_of. now rewrite length_map.
  - now rewrite Hkeys.
  - rewrite Hkeys. intros k' Hin. apply in_map_iff in Hin.
    destruct Hin as (y & <- & Hy). now apply Hzero.
  - exists (with_map (BRSetNew hash eq capacity) m').
    split; [|split; [|split]].
    + apply put_all_add_all; [intros y Hy; now apply Hzero|].
      cbn [BRSetNew BRSetStruct.map BRSetStruct.hash].
      rewrite entries_of_app, put_all_app, H1.
      cbn [entries_of map put_all]. now rewrite H4.
    + unfold BRSetCount. cbn [with_map BRSetStruct.map hashmap_length].
      now rewrite H7.
    + unfold BRSetContains, BRSetGet.
      cbn [with_map BRSetNew BRSetStruct.map BRSetStruct.hash].
      destruct (Z.eqb_spec x NULL) as [E|_];
        [exfalso; apply (Hzero x); [apply in_or_app; right; now left|exact E]|].
      now rewrite H8.
    + intros y Hy. unfold BRSetContains, BRSetGet.
      cbn [with_map BRSetNew BRSetStruct.map BRSetStruct.hash].
      assert (Hy0 : y <> NULL) by (apply Hzero, in_or_app; now left).
      destruct (Z.eqb_spec y NULL) as [|_]; [contradiction|].
      rewrite (H9 (hash y) y)
        by (unfold entries_of;
            apply (in_map (fun item => (hash item, item))); exact Hy).
      destruct (Z.eqb_spec y NULL); [contradiction|reflexivity].
Qed.

(** The items 1, ..., 9 with the hashes [1 * 2 ^ 32], ..., [9 * 2 ^ 32]. *)
Lemma ninth_colliding_add_is_lost_witness :
  exists set',
    add_all (heap_limit (2 ^ 29)) 22
            (BRSetNew (fun x => x * 2 ^ 32) (fun x y => if x =? y then 1 else 0) 9)
            ([1; 2; 3; 4; 5; 6; 7; 8] ++ [9]) = Some set' /\
    BRSetCount set' = 8 /\
    BRSetContains set' 9 = Some false /\
    (forall y, In y [1; 2; 3; 4; 5; 6; 7; 8] -> BRSetContains set' y = Some true).
Proof.
  apply (ninth_colliding_add_is_lost (heap_limit (2 ^ 29)) (2 ^ 29) 22
           (fun x => x * 2 ^ 32) (fun x y => if x =? y then 1 else 0) 9
           [1; 2; 3; 4; 5; 6; 7; 8] 9).
  - apply heap_limit_bounded.
  - reflexivity.
  - reflexivity.
  - apply distinctb_NoDup. vm_compute. reflexivity.
  - intros y Hin. vm_compute in Hin.
    repeat (destruct Hin as [<-|Hin]; [split; [discriminate|reflexivity]|]).
    contradiction.
Defined.

(** ** When the capacity changes *)

(** X6.  An insertion changes the capacity only when [hashmap_hash]
    answers [MAP_FULL] for the key.  When [hashmap_hash] finds a slot the
    insertion returns [MAP_OK], the capacity stays and the count goes up
    by one.  When it answers [MAP_FULL] and [calloc] fails, the insertion
    returns [MAP_OMEM] and the table is as it was; when [calloc]
    succeeds, the table the insertion leaves has at least twice the
    capacity, whatever it returns.  Removal and clearing never change
    the capacity. *)
Theorem capacity_changes_only_when_full calloc_ok fuel m k v st m' :
  0 < table_size m ->
  hashmap_put calloc_ok fuel m k v = Some (st, m') ->
  (forall idx, hashmap_hash m k = At idx ->
     st = MAP_OK /\ table_size m' = table_size m /\ size m' = size m + 1) /\
  (hashmap_hash m k = Full -> calloc_ok (2 * table_size m) = false ->
     st = MAP_OMEM /\ m' = m) /\
  (hashmap_hash m k = Full -> calloc_ok (2 * table_size m) = true ->
     2 * table_size m <= table_size m') /\
  (forall m0 k0, table_size (snd (hashmap_remove m0 k0)) = table_size m0) /\
  (forall m0, table_size (snd (hashmap_clear m0)) = table_size m0).
Proof.
  intros Hts Hput. split; [|split; [|split; [|split]]].
  - intros idx Hh. rewrite hashmap_put_eq, Hh in Hput.
    injection Hput as <- <-. repeat split.
  - intros Hh Hno.
    destruct (hashmap_put_full _ _ _ _ _ _ _ Hts Hh Hput)
      as [(_ & H1 & H2)|[H _]]; [now split|congruence].
  - intros Hh Hyes.
    destruct (hashmap_put_full _ _ _ _ _ _ _ Hts Hh Hput)
      as [(H & _)|[_ H]]; [congruence|exact H].
  - intros m0 k0. unfold hashmap_remove.
    destruct (remove_loop_cases (Z.to_nat MAX_CHAIN_LENGTH) m0 k0
                (hashmap_hash_int m0 k0)) as [->|[s ->]]; reflexivity.
  - reflexivity.
Qed.

(** The keys 1, ..., 128 and then key 129, which finds the count at half
    the capacity. *)
Lemma capacity_changes_only_when_full_witness :
  exists m st m',
    put_all no_memory 0 hashmap_new (identity_entries 1 128) = Some m /\
    hashmap_put (heap_limit (2 ^ 20)) 1 m 129 129 = Some (st, m') /\
    hashmap_hash m 129 = Full /\ table_size m' = 512 /\
    (forall idx, hashmap_hash m 129 = At idx ->
       st = MAP_OK /\ table_size m' = table_size m /\ size m' = size m + 1) /\
    (hashmap_hash m 129 = Full ->
     heap_limit (2 ^ 20) (2 * table_size m) = false -> st = MAP_OMEM /\ m' = m) /\
    (hashmap_hash m 129 = Full ->
     heap_limit (2 ^ 20) (2 * table_size m) = true ->
     2 * table_size m <= table_size m') /\
    (forall m0 k0, table_size (snd (hashmap_remove m0 k0)) = table_size m0) /\
    (forall m0, table_size (snd (hashmap_clear m0)) = table_size m0).
Proof.
  do 3 eexists. split; [vm_compute; reflexivity|].
  split; [vm_compute; reflexivity|].
  split; [vm_compute; reflexivity|]. split; [reflexivity|].
  eapply (capacity_changes_only_when_full (heap_limit (2 ^ 20)) 1 _ 129 129);
    vm_compute; reflexivity.
Defined.
